(** * tsm: a hierarchical state machine runtime

    Shallow embedding of the sources
      - [src/include/Event.h]       (module [EventH]),
      - [src/include/Transition.h]  (module [TransitionH]),
      - [src/include/AsyncExecutionPolicy.h] (module [AsyncH]),
      - [src/tsm.h]                 (module [Tsm]),
    followed by the properties established about them. *)

From Stdlib Require Import ZArith Lia.
From stdpp Require Import gmap list.

Local Open Scope Z_scope.

(** ** Event.h *)

Module EventH.

(** [event_id_t] and [event_data_t] are [uint32_t]: arithmetic wraps. *)
Definition uint32_max : Z := 2 ^ 32.
Definition wrap32 (z : Z) : Z := z mod uint32_max.

Record Event : Type := mkEvent { id : Z; data : Z }.

(** [operator==], [operator!=] and [operator<] look at the id only. *)
Definition Event_eq (a b : Event) : bool := id a =? id b.
Definition Event_ne (a b : Event) : bool := negb (Event_eq a b).
Definition Event_lt (a b : Event) : bool := id a <? id b.

(** [counter] is [thread_local]: there is one counter per thread, each
    starting at 0.  The store maps a thread to its counter; a thread
    that never called [counter_inc] is absent. *)
Definition counter_of (c : gmap nat Z) (tid : nat) : Z := default 0 (c !! tid).

(** [static event_id_t counter_inc() { thread_local event_id_t counter = 0;
    return ++counter; }] run on thread [tid]. *)
Definition counter_inc (tid : nat) (c : gmap nat Z) : Z * gmap nat Z :=
  let v := wrap32 (counter_of c tid + 1) in (v, <[tid := v]> c).

(** [Event()]: the undefined-id constructor, run on thread [tid]. *)
Definition Event_default (tid : nat) (c : gmap nat Z) : Event * gmap nat Z :=
  let '(v, c') := counter_inc tid c in (mkEvent v 0, c').

(** [Event(id)] and [Event(id, data)]: the counter is not consulted. *)
Definition Event_of_id (i : Z) (c : gmap nat Z) : Event * gmap nat Z :=
  (mkEvent i 0, c).
Definition Event_of_id_data (i d : Z) (c : gmap nat Z) : Event * gmap nat Z :=
  (mkEvent i d, c).

(** [n] default constructions in a row on thread [tid]; the event built
    last comes first in the result. *)
Fixpoint construct_n (n : nat) (tid : nat) (c : gmap nat Z)
  : list Event * gmap nat Z :=
  match n with
  | O => ([], c)
  | S k =>
      let '(es, c1) := construct_n k tid c in
      let '(e, c2) := Event_default tid c1 in
      (e :: es, c2)
  end.

(** The id of the [n]-th event default-constructed on [tid] (counting
    from 1) when the thread's counter store starts as [c]. *)
Definition nth_default_id (n : nat) (tid : nat) (c : gmap nat Z) : Z :=
  match fst (construct_n n tid c) with
  | e :: _ => id e
  | [] => counter_of c tid
  end.

(** [static Event const null_event = Event{};] built by the thread that
    runs the static initialisers. *)
Definition null_event (tid : nat) (c : gmap nat Z) : Event * gmap nat Z :=
  Event_default tid c.

End EventH.

(** ** Transition.h *)

Module TransitionH.
Import EventH.

(** What a transition does to its surroundings, in program order.  A
    [State] ([State.h]) is identified by its id; [ActionFn] values are
    named by a number so that a trace can tell them apart. *)
Inductive Effect : Type :=
| OnExit (s : nat) (e : Event)
| Action (a : nat) (e : Event)
| SetCurrentState (s : nat)
| OnEntry (s : nat) (e : Event).

(** Modelled from the spec: [State.h] and the machine class that stands
    for [FsmDef] are not among the sources.  Of the machine,
    [doTransition] uses [getCurrentState] and [setCurrentState], taken
    here to read and write the current state pointer ([None] is
    [nullptr]); the hooks [onExit] and [onEntry] of a state and the
    action are recorded, in program order, in a trace. *)
Record Fsm : Type := mkFsm {
  currentState : option nat;
  trace : list Effect
}.

Definition emit (x : Effect) (h : Fsm) : Fsm :=
  {| currentState := currentState h; trace := trace h ++ [x] |}.

Definition getCurrentState (h : Fsm) : option nat := currentState h.

Definition setCurrentState (s : nat) (h : Fsm) : Fsm :=
  {| currentState := Some s; trace := trace h ++ [SetCurrentState s] |}.

(** [struct Transition { State& toState; ActionFn action; GuardFn guard; }];
    an empty [std::function] is [None]. *)
Record Transition : Type := mkTransition {
  toState : nat;
  action : option nat;
  guard : option (Event -> bool)
}.

(** [bool doTransition(FsmDef* hsm, Event const& e)].  The result is
    [None] when [hsm->getCurrentState()] is null and is dereferenced. *)
Definition doTransition (t : Transition) (hsm : Fsm) (e : Event)
  : option (bool * Fsm) :=
  let result := match guard t with Some g => g e | None => false end in
  if negb (bool_decide (is_Some (guard t))) || result then
    match getCurrentState hsm with
    | None => None
    | Some cur =>
        let h1 := emit (OnExit cur e) hsm in
        let h2 := match action t with
                  | Some a => emit (Action a e) h1
                  | None => h1
                  end in
        let h3 := setCurrentState (toState t) h2 in
        let h4 := emit (OnEntry (toState t) e) h3 in
        Some (true, h4)
    end
  else Some (false, hsm).

(** [StateTransitionTableT]: [data_] is an [unordered_map] keyed by
    [(State&, Event)]; key equality compares the state and the event id.
    [eventSet_] is a [std::set<Event>], ordered by id: it is kept as the
    set of the ids of its elements, which decides membership; the data of
    the stored events is not recorded. *)
Record StateTransitionTableT : Type := mkTable {
  data_ : gmap (nat * Z) Transition;
  eventSet_ : gset Z
}.

Definition empty_table : StateTransitionTableT :=
  {| data_ := ∅; eventSet_ := ∅ |}.

(** [Transition* next(State& fromState, Event const& onEvent)]. *)
Definition next (tbl : StateTransitionTableT) (fromState : nat) (onEvent : Event)
  : option Transition :=
  data_ tbl !! (fromState, id onEvent).

(** [data_.insert(e)]: [std::unordered_map::insert] adds the element only
    when no element with an equivalent key is present. *)
Definition addTransition (fromState : nat) (onEvent : Event) (t : Transition)
    (tbl : StateTransitionTableT) : StateTransitionTableT :=
  match data_ tbl !! (fromState, id onEvent) with
  | Some _ => tbl
  | None =>
      {| data_ := <[(fromState, id onEvent) := t]> (data_ tbl);
         eventSet_ := eventSet_ tbl |}
  end.

(** [void add(fromState, onEvent, toState, action, guard)]. *)
Definition add (fromState : nat) (onEvent : Event) (toSt : nat)
    (act : option nat) (grd : option (Event -> bool))
    (tbl : StateTransitionTableT) : StateTransitionTableT :=
  let t := mkTransition toSt act grd in
  let tbl1 := addTransition fromState onEvent t tbl in
  {| data_ := data_ tbl1; eventSet_ := {[ id onEvent ]} ∪ eventSet_ tbl1 |}.

Definition getEvents (tbl : StateTransitionTableT) : gset Z := eventSet_ tbl.

(** A declaration is the argument list of one call of [add]; [declare]
    makes the calls in order, as the constructor of a machine definition
    does. *)
Record Declaration : Type := mkDecl {
  d_from : nat;
  d_event : Event;
  d_to : nat;
  d_action : option nat;
  d_guard : option (Event -> bool)
}.

Definition declare (ds : list Declaration) (tbl : StateTransitionTableT)
  : StateTransitionTableT :=
  foldl (fun acc d => add (d_from d) (d_event d) (d_to d) (d_action d) (d_guard d) acc)
        tbl ds.

End TransitionH.

(** ** AsyncExecutionPolicy.h *)

Module AsyncH.
Import EventH.

Section Policy.
(** [StateType] is the wrapped machine; its hooks are those of the
    class the policy is mixed into. *)
Variable StateType : Type.
Variable StateType_onEntry : Event -> StateType -> StateType.
Variable StateType_onExit : Event -> StateType -> StateType.

(** [smThread_] is modelled by whether it is joinable; [eventQueue_]
    by its stopped flag. *)
Record AsyncExecutionPolicy : Type := mkPolicy {
  base : StateType;
  smThread_ : bool;
  queue_stopped : bool;
  interrupt_ : bool
}.

(** [void onEntry(Event const& e)].  Move-assigning to a joinable
    [std::thread] calls [std::terminate]: the result is [None]. *)
Definition onEntry (e : Event) (p : AsyncExecutionPolicy)
  : option AsyncExecutionPolicy :=
  let b := StateType_onEntry e (base p) in
  if smThread_ p then None
  else Some {| base := b; smThread_ := true;
               queue_stopped := queue_stopped p; interrupt_ := interrupt_ p |}.

(** [void onExit(Event const& e)]. *)
Definition onExit (e : Event) (p : AsyncExecutionPolicy) : AsyncExecutionPolicy :=
  {| base := StateType_onExit e (base p); smThread_ := smThread_ p;
     queue_stopped := true; interrupt_ := true |}.
(** [StateType::dispatch], which the worker calls for each event. *)
Variable StateType_dispatch : Event -> StateType -> StateType.

Definition with_base (b : StateType) (p : AsyncExecutionPolicy) : AsyncExecutionPolicy :=
  {| base := b; smThread_ := smThread_ p;
     queue_stopped := queue_stopped p; interrupt_ := interrupt_ p |}.

(** Modelled from the spec: [EventQueue.h], with [EventQueueT], is not
    among the sources.  The events waiting in [eventQueue_] are kept
    beside the policy, oldest first; [addEvent] appends; [nextEvent]
    hands out the oldest, waits when there is none, and once the queue is
    stopped returns with [interrupted()] true. *)
Definition sendEvent (e : Event) (evs : list Event) : list Event := evs ++ [e].

(** [void processEvent()]; [None] when the call blocks in [nextEvent]. *)
Definition processEvent (evs : list Event) (p : AsyncExecutionPolicy)
  : option (list Event * AsyncExecutionPolicy) :=
  if queue_stopped p then Some (evs, p)
  else match evs with
       | [] => None
       | e :: rest => Some (rest, with_base (StateType_dispatch e (base p)) p)
       end.

Inductive StepEnd : Type :=
| StepReturned          (* the loop condition failed *)
| StepWaiting           (* blocked in nextEvent() *)
| StepOutOfFuel.

(** [virtual void step()]: [while (!interrupt_) processEvent();]. *)
Fixpoint step (fuel : nat) (evs : list Event) (p : AsyncExecutionPolicy)
  : StepEnd * list Event * AsyncExecutionPolicy :=
  match fuel with
  | O => (StepOutOfFuel, evs, p)
  | S f =>
      if interrupt_ p then (StepReturned, evs, p)
      else match processEvent evs p with
           | None => (StepWaiting, evs, p)
           | Some (evs', p') => step f evs' p'
           end
  end.

(** [AsyncExecWithObserver::step]: [notify()] before each
    [processEvent()]; the observer is whatever [notify] works on. *)
Variable Observer : Type.
Variable notify : Observer -> Observer.

Fixpoint step_observed (fuel : nat) (evs : list Event) (p : AsyncExecutionPolicy)
    (o : Observer) : StepEnd * list Event * AsyncExecutionPolicy * Observer :=
  match fuel with
  | O => (StepOutOfFuel, evs, p, o)
  | S f =>
      if interrupt_ p then (StepReturned, evs, p, o)
      else
        let o1 := notify o in
        match processEvent evs p with
        | None => (StepWaiting, evs, p, o1)
        | Some (evs', p') => step_observed f evs' p' o1
        end
  end.

End Policy.

End AsyncH.

(** ** tsm.h *)

Module Tsm.
Import EventH.

(** A [shared_ptr<State>] is the identity of the state it points to;
    [None] is [nullptr].  Member-function pointers ([ActionFn],
    [GuardFn]) are named by a number, [None] being [nullptr]. *)
Record Transition : Type := mkTransition {
  fromState : option nat;
  onEvent : Event;
  toState : option nat;
  action : option nat;
  guard : option nat
}.

(** [StateMachine<DerivedHSM>]; an [OrthogonalHSM] is the same record
    with its two children in [hsms_].  [eventSet_] is a [std::set<Event>],
    ordered by id: it is kept as the set of the ids of its elements,
    which decides membership; the data of the stored events is not
    recorded. *)
Record StateMachine : Type := mkSM {
  interrupt_ : bool;
  currentState_ : option nat;
  startState_ : option nat;
  stopState_ : option nat;
  table_ : gmap (option nat * Z) Transition;
  parent_ : option nat;
  smThread_ : bool;                 (* joinable *)
  eventSet_ : gset Z;
  hsms_ : option (nat * nat)        (* hsm1_, hsm2_ *)
}.

Definition set_interrupt (b : bool) (M : StateMachine) : StateMachine :=
  mkSM b (currentState_ M) (startState_ M) (stopState_ M) (table_ M)
       (parent_ M) (smThread_ M) (eventSet_ M) (hsms_ M).
Definition set_current (s : option nat) (M : StateMachine) : StateMachine :=
  mkSM (interrupt_ M) s (startState_ M) (stopState_ M) (table_ M)
       (parent_ M) (smThread_ M) (eventSet_ M) (hsms_ M).
Definition set_thread (b : bool) (M : StateMachine) : StateMachine :=
  mkSM (interrupt_ M) (currentState_ M) (startState_ M) (stopState_ M) (table_ M)
       (parent_ M) b (eventSet_ M) (hsms_ M).
(** [void setParent(State* parent)]. *)
Definition setParent (p : option nat) (M : StateMachine) : StateMachine :=
  mkSM (interrupt_ M) (currentState_ M) (startState_ M) (stopState_ M) (table_ M)
       p (smThread_ M) (eventSet_ M) (hsms_ M).

(** The five-argument constructor. *)
Definition new_StateMachine (startState stopState : option nat) (parent : option nat)
  : StateMachine :=
  mkSM false None startState stopState ∅ parent false ∅ None.

Definition getStartState (M : StateMachine) : option nat := startState_ M.
Definition getStopState (M : StateMachine) : option nat := stopState_ M.
Definition getCurrentState (M : StateMachine) : option nat := currentState_ M.
Definition getEvents (M : StateMachine) : gset Z := eventSet_ M.
Definition getParent (M : StateMachine) : option nat := parent_ M.

(** [StateTransitionTable::next]: the key pairs the state pointer with
    the event, and events compare by id. *)
Definition next (tbl : gmap (option nat * Z) Transition)
    (fromSt : option nat) (ev : Event) : option Transition :=
  tbl !! (fromSt, id ev).

(** [addTransition]: [table_.insert(e)] keeps an element that is already
    stored under an equivalent key. *)
Definition addTransition (fromSt : option nat) (ev : Event) (t : Transition)
    (M : StateMachine) : StateMachine :=
  match table_ M !! (fromSt, id ev) with
  | Some _ => M
  | None =>
      mkSM (interrupt_ M) (currentState_ M) (startState_ M) (stopState_ M)
           (<[(fromSt, id ev) := t]> (table_ M))
           (parent_ M) (smThread_ M) (eventSet_ M) (hsms_ M)
  end.

(** [void add(fromState, onEvent, toState, action, guard)]. *)
Definition add (fromSt : option nat) (ev : Event) (toSt : option nat)
    (act grd : option nat) (M : StateMachine) : StateMachine :=
  let t := mkTransition fromSt ev toSt act grd in
  let M1 := addTransition fromSt ev t M in
  mkSM (interrupt_ M1) (currentState_ M1) (startState_ M1) (stopState_ M1)
       (table_ M1) (parent_ M1) (smThread_ M1)
       ({[ id ev ]} ∪ eventSet_ M1) (hsms_ M1).

(** Modelled from the spec: [EventQueue.h] is not among the sources.  The
    queue is a deque with a stopped flag; [nextEvent] signals
    interruption once the queue is stopped, hands out the head otherwise,
    and has to wait on an empty queue. *)
Record EventQueue : Type := mkQueue {
  events : list Event;
  stopped : bool
}.

Inductive NextEvent : Type :=
| QInterrupted
| QEmpty
| QHead (e : Event) (q : EventQueue).

Definition nextEvent (q : EventQueue) : NextEvent :=
  if stopped q then QInterrupted
  else match events q with
       | [] => QEmpty
       | e :: rest => QHead e (mkQueue rest (stopped q))
       end.

Definition addFront (e : Event) (q : EventQueue) : EventQueue :=
  mkQueue (e :: events q) (stopped q).
Definition addBack (e : Event) (q : EventQueue) : EventQueue :=
  mkQueue (events q ++ [e]) (stopped q).
Definition stop (q : EventQueue) : EventQueue := mkQueue (events q) true.

(** What a run does, in program order. *)
Inductive Effect : Type :=
| EOnEntry (s : nat)                  (* State::OnEntry of a plain state *)
| EOnExit (s : nat)                   (* State::OnExit of a plain state *)
| EExecute (s : nat)                  (* State::execute of a plain state *)
| ECurrent (m : nat) (s : option nat) (* currentState_ of m assigned *)
| EAction (m a : nat)                 (* (this->*action)() *)
| EDequeue (m : nat) (e : Event)      (* eventQueue_.nextEvent() returned e *)
| EAddFront (m : nat) (e : Event)     (* eventQueue_.addFront(e) *)
| EUnhandled (m : nat) (e : Event)    (* "Reached top level HSM. Cannot handle event" *)
| EGuardPrevented (m : nat) (e : Event)
| ESpawn (m : nat)                    (* smThread_ = std::thread(execute) *)
| EQueueStop (m : nat)
| EJoin (m : nat).

(** How a call ends. *)
Inductive Outcome : Type :=
| Done                  (* returned to the caller *)
| Waiting               (* blocked in nextEvent() on an empty queue *)
| QueueInterrupted      (* EventQueueInterruptedException leaves the call *)
| SystemError           (* std::system_error: join() on a thread that is not joinable *)
| StdTerminate          (* assignment to a joinable std::thread *)
| NullDeref             (* a null shared_ptr is dereferenced *)
| OutOfFuel.

Section Machines.
(** The embedder's side of [DerivedHSM]: its own data, what its
    actions do to it and what its guards answer. *)
Variable U : Type.
Variable run_action : nat -> U -> U.
Variable eval_guard : nat -> U -> bool.

(** Everything a run can see.  A state that has no entry in [heap] is a
    plain [State]. *)
Record World : Type := mkWorld {
  heap : gmap nat StateMachine;
  queue : EventQueue;
  trace : list Effect;
  user : U
}.

Definition emit (x : Effect) (w : World) : World :=
  mkWorld (heap w) (queue w) (trace w ++ [x]) (user w).
Definition set_queue (q : EventQueue) (w : World) : World :=
  mkWorld (heap w) q (trace w) (user w).
Definition set_user (u : U) (w : World) : World :=
  mkWorld (heap w) (queue w) (trace w) u.
Definition upd (m : nat) (f : StateMachine -> StateMachine) (w : World) : World :=
  mkWorld (alter f m (heap w)) (queue w) (trace w) (user w).

Definition interrupt_of (m : nat) (w : World) : bool :=
  match heap w !! m with Some M => interrupt_ M | None => false end.
Definition parent_of (m : nat) (w : World) : option nat :=
  match heap w !! m with Some M => parent_ M | None => None end.
Definition events_of (m : nat) (w : World) : gset Z :=
  match heap w !! m with Some M => getEvents M | None => ∅ end.
Definition current_of (m : nat) (w : World) : option nat :=
  match heap w !! m with Some M => currentState_ M | None => None end.

(** Modelled from the spec: [State.h] is not among the sources.  The
    hooks of a plain state ([State::OnEntry], [State::OnExit]) and its
    [execute], which the spec calls a no-op, change nothing in the
    machines or the queue; the trace records that they were called. *)
Definition State_OnEntry (s : nat) (w : World) : World := emit (EOnEntry s) w.
Definition State_OnExit (s : nat) (w : World) : World := emit (EOnExit s) w.
Definition State_execute (s : nat) (w : World) : World := emit (EExecute s) w.

(** [void startHSM()] of machine [m]. *)
Definition startHSM (m : nat) (w : World) : Outcome * World :=
  match heap w !! m with
  | None => (Done, w)
  | Some M =>
      let w1 := emit (ECurrent m (getStartState M))
                     (upd m (set_current (getStartState M)) w) in
      match parent_ M with
      | Some _ => (Done, w1)
      | None =>
          if smThread_ M then (StdTerminate, w1)
          else (Done, emit (ESpawn m) (upd m (set_thread true) w1))
      end
  end.

(** [void stopHSM()] of machine [m].  [smThread_.join()] is taken to
    return: a worker that never leaves its loop is not represented. *)
Definition stopHSM (m : nat) (w : World) : Outcome * World :=
  match heap w !! m with
  | None => (Done, w)
  | Some M =>
      let w1 := upd m (set_interrupt true) w in
      match parent_ M with
      | Some _ => (Done, w1)
      | None =>
          let w2 := emit (EQueueStop m) (set_queue (stop (queue w1)) w1) in
          if smThread_ M then (Done, emit (EJoin m) (upd m (set_thread false) w2))
          else (SystemError, w2)
      end
  end.

(** [OnEntry()], dispatched on what [s] is: a plain [State], a
    [StateMachine] or an [OrthogonalHSM]. *)
Fixpoint OnEntry (fuel : nat) (s : nat) (w : World) : Outcome * World :=
  match fuel with
  | O => (OutOfFuel, w)
  | S f =>
      match heap w !! s with
      | None => (Done, State_OnEntry s w)
      | Some M =>
          match hsms_ M with
          | None => startHSM s w
          | Some (h1, h2) =>
              match OnEntry f h1 w with
              | (Done, w1) =>
                  match OnEntry f h2 w1 with
                  | (Done, w2) => startHSM s w2
                  | r => r
                  end
              | r => r
              end
          end
      end
  end.

(** [StateMachine::OnExit()] proper: reset the current state, then stop. *)
Definition OnExit_base (s : nat) (w : World) : Outcome * World :=
  stopHSM s (emit (ECurrent s None) (upd s (set_current None) w)).

Fixpoint OnExit (fuel : nat) (s : nat) (w : World) : Outcome * World :=
  match fuel with
  | O => (OutOfFuel, w)
  | S f =>
      match heap w !! s with
      | None => (Done, State_OnExit s w)
      | Some M =>
          match hsms_ M with
          | None => OnExit_base s w
          | Some (h1, h2) =>
              match OnExit f h1 w with
              | (Done, w1) =>
                  match OnExit f h2 w1 with
                  | (Done, w2) => OnExit_base s w2
                  | r => r
                  end
              | r => r
              end
          end
      end
  end.

(** Modelled from the spec: [TransitionT::doTransition()], which
    [StateMachine::execute] calls, belongs to the [Transition.h] that
    [tsm.h] was written against and is not among the sources.  Of the
    spec's sequence exit, action, assignment, entry, execute the caller
    performs the assignment, the action and the execute itself, so this
    call leaves the transition's from-state, enters its to-state and
    hands back the action. *)
Definition doTransition (fuel : nat) (t : Transition) (w : World)
  : Outcome * World * option nat :=
  match fromState t, toState t with
  | Some a, Some b =>
      match OnExit fuel a w with
      | (Done, w1) =>
          let '(o, w2) := OnEntry fuel b w1 in (o, w2, action t)
      | (o, w1) => (o, w1, action t)
      end
  | _, _ => (NullDeref, w, action t)
  end.

(** [execute()], dispatched on what [m] is.  Each pass through a
    [while] loop and each nested call uses up one unit of fuel. *)
Fixpoint execute (fuel : nat) (m : nat) (w : World) : Outcome * World :=
  match fuel with
  | O => (OutOfFuel, w)
  | S f =>
    match heap w !! m with
    | None => (Done, State_execute m w)
    | Some M =>
      if interrupt_ M then (Done, w)
      else
        match hsms_ M with
        | None =>
          (* StateMachine::execute *)
          if decide (currentState_ M = getStopState M) then
            (Done, upd m (set_interrupt true) w)
          else
            match nextEvent (queue w) with
            | QInterrupted =>
                if negb (interrupt_of m w) then (QueueInterrupted, w) else (Done, w)
            | QEmpty => (Waiting, w)
            | QHead nextEv q =>
              let w1 := emit (EDequeue m nextEv) (set_queue q w) in
              match currentState_ M with
              | None => (NullDeref, w1)
              | Some _ =>
                match next (table_ M) (currentState_ M) nextEv with
                | None =>
                    match parent_ M with
                    | Some _ =>
                        (Done, emit (EAddFront m nextEv)
                                    (set_queue (addFront nextEv (queue w1)) w1))
                    | None => execute f m (emit (EUnhandled m nextEv) w1)
                    end
                | Some t =>
                  let result :=
                    match guard t with
                    | Some g => eval_guard g (user w1)
                    | None => false
                    end in
                  if negb (bool_decide (is_Some (guard t))) || result then
                    match doTransition f t w1 with
                    | (Done, w2, act) =>
                      let w3 := emit (ECurrent m (toState t))
                                     (upd m (set_current (toState t)) w2) in
                      let w4 :=
                        match act with
                        | Some a => emit (EAction m a)
                                         (set_user (run_action a (user w3)) w3)
                        | None => w3
                        end in
                      match toState t with
                      | None => (NullDeref, w4)
                      | Some s =>
                          match execute f s w4 with
                          | (Done, w5) => execute f m w5
                          | r => r
                          end
                      end
                    | (o, w2, _) => (o, w2)
                    end
                  else execute f m (emit (EGuardPrevented m nextEv) w1)
                end
              end
            end
        | Some (h1, h2) =>
          (* OrthogonalHSM::execute *)
          match execute f h1 w with
          | (Done, w1) =>
            match execute f h2 w1 with
            | (Done, w2) =>
              match nextEvent (queue w2) with
              | QInterrupted =>
                  if negb (interrupt_of m w2) then (QueueInterrupted, w2)
                  else (Done, w2)
              | QEmpty => (Waiting, w2)
              | QHead nextEv q =>
                let w3 := emit (EDequeue m nextEv) (set_queue q w2) in
                if decide (id nextEv ∈ events_of h1 w3) then
                  execute f m (emit (EAddFront m nextEv)
                                    (set_queue (addFront nextEv (queue w3)) w3))
                else
                  match parent_of m w3 with
                  | Some _ =>
                      (Done, emit (EAddFront m nextEv)
                                  (set_queue (addFront nextEv (queue w3)) w3))
                  | None => execute f m (emit (EUnhandled m nextEv) w3)
                  end
              end
            | r => r
            end
          | r => r
          end
        end
    end
  end.

(** Names for the worlds that one pass of [StateMachine::execute] goes
    through: right after the dequeue, after the assignment of line 192
    (given the world [w2] that [doTransition()] left) and after the
    action of line 196. *)
Definition dequeued (m : nat) (e : Event) (q : EventQueue) (w : World) : World :=
  emit (EDequeue m e) (set_queue q w).
Definition assigned (m : nat) (t : Transition) (w2 : World) : World :=
  emit (ECurrent m (toState t)) (upd m (set_current (toState t)) w2).
Definition acted (m : nat) (act : option nat) (w3 : World) : World :=
  match act with
  | Some a => emit (EAction m a) (set_user (run_action a (user w3)) w3)
  | None => w3
  end.

(** The guard of [t] is absent or answers true in [w]. *)
Definition passes (t : Transition) (w : World) : Prop :=
  guard t = None ∨ ∃ g, guard t = Some g ∧ eval_guard g (user w) = true.

(** The world in which the loop goes round again after a transition
    from the plain state [a] to the plain state [b]. *)
Definition transitioned (m : nat) (e : Event) (q : EventQueue)
    (t : Transition) (a b : nat) (w : World) : World :=
  emit (EExecute b)
    (acted m (action t)
       (assigned m t (emit (EOnEntry b) (emit (EOnExit a) (dequeued m e q w))))).

(** The [OrthogonalHSM] constructor: the object [m] is created with
    null start and stop states and both children get it as parent. *)
Definition new_OrthogonalHSM (m h1 h2 : nat) (parent : option nat) (w : World) : World :=
  let M := mkSM false None None None ∅ parent false ∅ (Some (h1, h2)) in
  upd h2 (setParent (Some m))
      (upd h1 (setParent (Some m))
           (mkWorld (<[m := M]> (heap w)) (queue w) (trace w) (user w))).

End Machines.

Arguments mkWorld {U} _ _ _ _.
Arguments heap {U} _.
Arguments queue {U} _.
Arguments trace {U} _.
Arguments user {U} _.
Arguments emit {U} _ _.
Arguments set_queue {U} _ _.
Arguments set_user {U} _ _.
Arguments upd {U} _ _ _.
Arguments interrupt_of {U} _ _.
Arguments parent_of {U} _ _.
Arguments events_of {U} _ _.
Arguments current_of {U} _ _.
Arguments State_OnEntry {U} _ _.
Arguments State_OnExit {U} _ _.
Arguments State_execute {U} _ _.
Arguments startHSM {U} _ _.
Arguments stopHSM {U} _ _.
Arguments OnEntry {U} _ _ _.
Arguments OnExit_base {U} _ _.
Arguments OnExit {U} _ _ _.
Arguments doTransition {U} _ _ _.
Arguments execute {U} _ _ _ _ _.
Arguments dequeued {U} _ _ _ _.
Arguments assigned {U} _ _ _.
Arguments acted {U} _ _ _ _.
Arguments passes {U} _ _ _.
Arguments new_OrthogonalHSM {U} _ _ _ _ _.
Arguments transitioned {U} _ _ _ _ _ _ _ _.

(** [declare] makes one call of [add] per transition of the list, in
    order, as the constructor of a derived machine does. *)
Definition declare (ds : list Transition) (M : StateMachine) : StateMachine :=
  foldl (fun acc t => add (fromState t) (onEvent t) (toState t) (action t) (guard t) acc)
        M ds.

(** *** Vocabulary of the properties *)

(** What a machine is built with, as opposed to what a run changes. *)
Definition static (M : StateMachine) :=
  (startState_ M, stopState_ M, table_ M, parent_ M, eventSet_ M, hsms_ M).

Definition same_static {U} (w w' : World U) : Prop :=
  ∀ s : nat, static <$> (heap w !! s) = static <$> (heap w' !! s).

(** The current state is null, the start state, or the toState of an
    entry of the machine's own table. *)
Definition current_ok (M : StateMachine) : Prop :=
  currentState_ M = None
  ∨ currentState_ M = startState_ M
  ∨ ∃ k t, table_ M !! k = Some t ∧ toState t = currentState_ M.

Definition world_ok {U} (w : World U) : Prop :=
  map_Forall (λ _ M, current_ok M) (heap w).

(** The events that a trace shows as taken off the queue and not put
    back, oldest first, each with the machine that took it. *)
Fixpoint taken_from (acc : list (nat * Event)) (tr : list Effect)
  : list (nat * Event) :=
  match tr with
  | [] => acc
  | EDequeue m e :: rest => taken_from (acc ++ [(m, e)]) rest
  | EAddFront _ _ :: rest => taken_from (removelast acc) rest
  | _ :: rest => taken_from acc rest
  end.
Definition taken (tr : list Effect) : list (nat * Event) := taken_from [] tr.

(** Effects that leave the queue alone. *)
Definition quiet (x : Effect) : Prop :=
  match x with
  | EDequeue _ _ | EAddFront _ _ => False
  | _ => True
  end.

(** What was taken so far followed by what is still queued is the same
    sequence of events in [w'] as in [w]. *)
Definition conserved {U} (w w' : World U) : Prop :=
  (taken (trace w')).*2 ++ events (queue w')
  = (taken (trace w)).*2 ++ events (queue w).

(** [w'] is what a run may make of [w]: the machines are built the same,
    the trace has only grown, a legal current state stays legal, and no
    event is lost or taken twice. *)
Definition evolves {U} (w w' : World U) : Prop :=
  same_static w w'
  ∧ (∃ tr, trace w' = trace w ++ tr)
  ∧ (world_ok w → world_ok w')
  ∧ conserved w w'.

End Tsm.

(** The recognized events of a table are the event ids of its keys. *)
Definition Tsm_events_match (M : Tsm.StateMachine) : Prop :=
  ∀ i : Z, i ∈ Tsm.getEvents M ↔ ∃ s, is_Some (Tsm.table_ M !! (s, i)).
Definition TH_events_match (tbl : TransitionH.StateTransitionTableT) : Prop :=
  ∀ i : Z, i ∈ TransitionH.getEvents tbl
           ↔ ∃ s, is_Some (TransitionH.data_ tbl !! (s, i)).

(** [M'] is built as [M] is: same table, recognized events, start and
    stop state, parent and children. *)
Definition built_alike (M M' : Tsm.StateMachine) : Prop :=
  Tsm.table_ M' = Tsm.table_ M ∧ Tsm.eventSet_ M' = Tsm.eventSet_ M
  ∧ Tsm.startState_ M' = Tsm.startState_ M ∧ Tsm.stopState_ M' = Tsm.stopState_ M
  ∧ Tsm.parent_ M' = Tsm.parent_ M ∧ Tsm.hsms_ M' = Tsm.hsms_ M.

(** Every entry of the table of [M] goes from a plain state to a plain
    state of the world [w]. *)
Definition plain_entries {U} (w : Tsm.World U) (M : Tsm.StateMachine) : Prop :=
  ∀ k t, Tsm.table_ M !! k = Some t →
         ∃ a b : nat, Tsm.fromState t = Some a ∧ Tsm.toState t = Some b
                      ∧ Tsm.heap w !! a = None ∧ Tsm.heap w !! b = None.

(** ** Sample machines *)

Module Samples.
Import EventH Tsm.

Definition ev (i : Z) : Event := mkEvent i 0.

(** The embedder's data is the list of actions run so far, latest first;
    guard 0 always answers false, every other guard true. *)
Definition sample_action (a : nat) (u : list nat) : list nat := a :: u.
Definition sample_guard (g : nat) (_ : list nat) : bool := negb (Nat.eqb g 0).
Definition run := execute sample_action sample_guard.

Definition world_of (h : gmap nat StateMachine) (evs : list Event) : World (list nat) :=
  mkWorld h (mkQueue evs false) [] [].

(** The events that machine [m] took off the queue and did not put back. *)
Definition kept_by (m : nat) (tr : list Effect) : list Event :=
  (filter (λ x, x.1 = m) (taken tr)).*2.

(** The current states that machine [m] went through. *)
Fixpoint trajectory (m : nat) (tr : list Effect) : list (option nat) :=
  match tr with
  | [] => []
  | ECurrent m1 s :: rest =>
      if Nat.eqb m1 m then s :: trajectory m rest else trajectory m rest
  | _ :: rest => trajectory m rest
  end.

(** The socket machine of the usage example: states closed 1, ready 2,
    bound 3, open 4, listening 5; events sock_open 1, bind 2, listen 3,
    connect 4, accept 5, close 6.  It is machine 0 and has no parent. *)
Definition socket : StateMachine :=
  add (Some 4%nat) (ev 6) (Some 1%nat) None None
    (add (Some 5%nat) (ev 6) (Some 1%nat) None None
       (add (Some 5%nat) (ev 5) (Some 5%nat) None None
          (add (Some 3%nat) (ev 3) (Some 5%nat) None None
             (add (Some 2%nat) (ev 2) (Some 3%nat) None None
                (add (Some 2%nat) (ev 4) (Some 4%nat) None None
                   (add (Some 1%nat) (ev 1) (Some 2%nat) None None
                      (new_StateMachine (Some 1%nat) None None))))))).

Definition socket_world (evs : list Event) : World (list nat) :=
  world_of (<[0%nat := set_current (Some 1%nat) socket]> ∅) evs.

(** Machine 0 in state 1 with one transition, on event 5 to state 2. *)
Definition one_step (act grd : option nat) (stopSt parent : option nat) : StateMachine :=
  set_current (Some 1%nat)
    (add (Some 1%nat) (ev 5) (Some 2%nat) act grd
       (new_StateMachine (Some 1%nat) stopSt parent)).

Definition one_step_world (act grd stopSt parent : option nat) (evs : list Event)
  : World (list nat) :=
  world_of (<[0%nat := one_step act grd stopSt parent]> ∅) evs.

(** A machine that has not been started: machine 0, start state 1. *)
Definition fresh_world (parent : option nat) : World (list nat) :=
  world_of (<[0%nat := new_StateMachine (Some 1%nat) None parent]> ∅) [].

(** Machine 0, a child of machine 9, which was started in state 1 and
    has since moved on to state 2. *)
Definition advanced_child : StateMachine :=
  set_current (Some 2%nat)
    (add (Some 1%nat) (ev 5) (Some 2%nat) None None
       (new_StateMachine (Some 1%nat) None (Some 9%nat))).
Definition advanced_world : World (list nat) :=
  world_of (<[0%nat := advanced_child]> ∅) [].

(** A parent (machine 100) over plain states 101 and 102 and the child
    machine 200; the child has plain states 201 and 202. *)
Definition parent_sm : StateMachine :=
  set_current (Some 101%nat)
    (add (Some 200%nat) (ev 8) (Some 102%nat) None None
       (add (Some 101%nat) (ev 7) (Some 200%nat) None None
          (new_StateMachine (Some 101%nat) None None))).
Definition child_sm : StateMachine :=
  add (Some 201%nat) (ev 9) (Some 202%nat) None None
    (new_StateMachine (Some 201%nat) None (Some 100%nat)).
Definition family_world (evs : list Event) : World (list nat) :=
  world_of (<[100%nat := parent_sm]> (<[200%nat := child_sm]> ∅)) evs.

(** The family after the parent has moved into the child: the child is
    started and in its start state 201, and event 8, which only the
    parent has a transition for, is at the head of the queue. *)
Definition entered_family : World (list nat) :=
  world_of (<[100%nat := set_current (Some 200%nat) parent_sm]>
              (<[200%nat := set_current (Some 201%nat) child_sm]> ∅))
           [ev 8].


(** Two peers for an [OrthogonalHSM]: [peerA] (machine 1) flips between
    the states 10 and 11 on event 1 and stays in 10 on event 2; [peerB]
    (machine 2) flips between 20 and 21 on event 3. *)
Definition peerA : StateMachine :=
  add (Some 10%nat) (ev 2) (Some 10%nat) None None
    (add (Some 11%nat) (ev 1) (Some 10%nat) None None
       (add (Some 10%nat) (ev 1) (Some 11%nat) None None
          (new_StateMachine (Some 10%nat) None None))).
Definition peerB : StateMachine :=
  add (Some 21%nat) (ev 3) (Some 20%nat) None None
    (add (Some 20%nat) (ev 3) (Some 21%nat) None None
       (new_StateMachine (Some 20%nat) None None)).

(** [peerB'] recognizes event 3 too, but only from state 21. *)
Definition peerB' : StateMachine :=
  add (Some 21%nat) (ev 3) (Some 20%nat) None None
    (new_StateMachine (Some 20%nat) None None).

(** [peerB''] takes events 3 and 1 in turn. *)
Definition peerB'' : StateMachine :=
  add (Some 21%nat) (ev 1) (Some 20%nat) None None
    (add (Some 20%nat) (ev 3) (Some 21%nat) None None
       (new_StateMachine (Some 20%nat) None None)).

(** The orthogonal machine 0 over machines 1 and 2, constructed and then
    entered as the children of a machine [parent] are. *)
Definition ortho_world (A B : StateMachine) (parent : option nat) (evs : list Event)
  : World (list nat) :=
  let w := new_OrthogonalHSM 0%nat 1%nat 2%nat parent
             (world_of (<[1%nat := A]> (<[2%nat := B]> ∅)) evs) in
  mkWorld (heap (snd (OnEntry 3 0%nat w))) (queue w) [] [].

(** An orthogonal machine 0 whose child A is in state 11, from where it
    has no transition on event 2 although it recognizes that event, and
    whose child B is in state 20; event 2 is at the head of the queue. *)
Definition stuck_peers : World (list nat) :=
  world_of
    (<[0%nat := mkSM false None None None ∅ None false ∅ (Some (1%nat, 2%nat))]>
       (<[1%nat := set_current (Some 11%nat) (setParent (Some 0%nat) peerA)]>
          (<[2%nat := set_current (Some 20%nat) (setParent (Some 0%nat) peerB)]> ∅)))
    [ev 2; ev 3].

End Samples.

(** * Properties *)

(** ** Event identifiers *)

Section EventFacts.
Import EventH.

Lemma wrap32_idemp_succ (z : Z) : wrap32 (wrap32 z + 1) = wrap32 (z + 1).
Proof. unfold wrap32, uint32_max. now rewrite Zplus_mod_idemp_l. Qed.

Lemma wrap32_idem (z : Z) : wrap32 (wrap32 z) = wrap32 z.
Proof. unfold wrap32, uint32_max. now rewrite Z.mod_mod by lia. Qed.

Lemma counter_of_insert_eq (tid : nat) (v : Z) (c : gmap nat Z) :
  counter_of (<[tid := v]> c) tid = v.
Proof. unfold counter_of. now rewrite lookup_insert_eq. Qed.

Lemma counter_of_insert_ne (tid tid' : nat) (v : Z) (c : gmap nat Z) :
  tid' ≠ tid → counter_of (<[tid' := v]> c) tid = counter_of c tid.
Proof. intros Hne. unfold counter_of. now rewrite lookup_insert_ne. Qed.

(** After [n] default constructions the thread's counter has advanced
    by [n], modulo [2^32]. *)
Lemma construct_n_counter (n : nat) (tid : nat) (c : gmap nat Z) :
  wrap32 (counter_of (snd (construct_n n tid c)) tid)
  = wrap32 (counter_of c tid + Z.of_nat n).
Proof.
  induction n as [|k IH]; simpl.
  - now rewrite Z.add_0_r.
  - destruct (construct_n k tid c) as [es c1] eqn:Hk. simpl in *.
    rewrite counter_of_insert_eq.
    rewrite wrap32_idem.
    rewrite <- wrap32_idemp_succ, IH, wrap32_idemp_succ.
    f_equal. lia.
Qed.

Lemma nth_default_id_closed (n : nat) (tid : nat) (c : gmap nat Z) :
  (0 < n)%nat →
  nth_default_id n tid c = wrap32 (counter_of c tid + Z.of_nat n).
Proof.
  destruct n as [|k]; [lia|]. intros _.
  unfold nth_default_id. simpl.
  destruct (construct_n k tid c) as [es c1] eqn:Hk. simpl.
  pose proof (construct_n_counter k tid c) as IH. rewrite Hk in IH. simpl in IH.
  rewrite <- wrap32_idemp_succ, IH, wrap32_idemp_succ. f_equal. lia.
Qed.

Lemma wrap32_apart (a i j : Z) :
  0 < j - i < uint32_max → wrap32 (a + i) ≠ wrap32 (a + j).
Proof.
  unfold wrap32, uint32_max. intros Hij Heq.
  assert (H : ((a + j) - (a + i)) mod 2 ^ 32 = 0).
  { rewrite Zminus_mod, Heq, Z.sub_diag. reflexivity. }
  replace (a + j - (a + i)) with (j - i) in H by lia.
  rewrite Z.mod_small in H by lia. lia.
Qed.
End EventFacts.

(** C8 (as the code has it).  The counter behind the default constructor
    is thread-local and 32 bits wide: two events default-constructed on
    the same thread, the [i]-th and the [j]-th with fewer than [2^32]
    constructions from the one to the other, get distinct ids; a default
    construction on another thread leaves this thread's counter alone; and
    the constructors that take an id use it as given and leave every
    counter alone, so the counter is consulted by the default constructor
    only. *)
Theorem C8_default_ids_distinct_on_one_thread
    (tid tid' : nat) (c : gmap nat Z) (i j : nat) (x d : Z) :
  (0 < i < j)%nat →
  Z.of_nat j - Z.of_nat i < EventH.uint32_max →
  tid' ≠ tid →
  EventH.nth_default_id i tid c ≠ EventH.nth_default_id j tid c
  ∧ EventH.counter_of (snd (EventH.Event_default tid' c)) tid = EventH.counter_of c tid
  ∧ EventH.Event_of_id x c = (EventH.mkEvent x 0, c)
  ∧ EventH.Event_of_id_data x d c = (EventH.mkEvent x d, c)
  ∧ EventH.id (fst (EventH.Event_default tid c))
    = EventH.wrap32 (EventH.counter_of c tid + 1).
Proof.
  intros Hij Hgap Hne. repeat split.
  - rewrite !nth_default_id_closed by lia. apply wrap32_apart. lia.
  - unfold EventH.Event_default, EventH.counter_inc. simpl.
    now apply counter_of_insert_ne.
Qed.

Lemma C8_default_ids_distinct_on_one_thread_witness :
  EventH.nth_default_id 1 0 ∅ ≠ EventH.nth_default_id 2 0 ∅.
Proof.
  refine (proj1 (C8_default_ids_distinct_on_one_thread 0 1 ∅ 1 2 7 9 _ _ _)).
  - lia.
  - unfold EventH.uint32_max. lia.
  - lia.
Defined.

(** C8 fails as stated: the first event default-constructed on thread 0
    and the first one default-constructed on thread 1 of the same process
    both get id 1. *)
Lemma C8_same_id_on_two_threads :
  let '(e1, c1) := EventH.Event_default 0 ∅ in
  let '(e2, _) := EventH.Event_default 1 c1 in
  EventH.id e1 = 1 ∧ EventH.id e2 = 1 ∧ ¬ (EventH.id e1 ≠ EventH.id e2).
Proof. vm_compute. repeat split; intros H; now apply H. Qed.

(** ** Transition tables *)

Section TableFacts.
Import EventH.

(** *** [Transition.h] *)

Lemma TH_add_fresh tbl (fromSt : nat) (ev : Event) toSt act grd :
  TransitionH.next tbl fromSt ev = None →
  TransitionH.next (TransitionH.add fromSt ev toSt act grd tbl) fromSt ev
  = Some (TransitionH.mkTransition toSt act grd).
Proof.
  unfold TransitionH.next, TransitionH.add, TransitionH.addTransition.
  intros ->. simpl. apply lookup_insert_eq.
Qed.

Lemma TH_add_present tbl (fromSt : nat) (ev ev' : Event) toSt act grd :
  id ev' = id ev →
  is_Some (TransitionH.next tbl fromSt ev) →
  TransitionH.data_ (TransitionH.add fromSt ev' toSt act grd tbl)
  = TransitionH.data_ tbl.
Proof.
  unfold TransitionH.next, TransitionH.add, TransitionH.addTransition.
  intros -> [t ->]. reflexivity.
Qed.

Lemma TH_add_is_Some tbl (fromSt : nat) (ev : Event) toSt act grd :
  is_Some (TransitionH.next (TransitionH.add fromSt ev toSt act grd tbl) fromSt ev).
Proof.
  destruct (TransitionH.next tbl fromSt ev) as [t|] eqn:Hn.
  - unfold TransitionH.next in *.
    rewrite (TH_add_present tbl fromSt ev ev) by (rewrite ?Hn; eauto). eauto.
  - rewrite TH_add_fresh by assumption. eauto.
Qed.

Lemma TH_add_events tbl (fromSt : nat) (ev : Event) toSt act grd :
  TransitionH.getEvents (TransitionH.add fromSt ev toSt act grd tbl)
  = {[ id ev ]} ∪ TransitionH.getEvents tbl.
Proof.
  unfold TransitionH.getEvents, TransitionH.add, TransitionH.addTransition. simpl.
  destruct (TransitionH.data_ tbl !! (fromSt, id ev)); reflexivity.
Qed.

(** *** [tsm.h] *)

Lemma Tsm_add_fresh M (fromSt : option nat) (ev : Event) toSt act grd :
  Tsm.next (Tsm.table_ M) fromSt ev = None →
  Tsm.next (Tsm.table_ (Tsm.add fromSt ev toSt act grd M)) fromSt ev
  = Some (Tsm.mkTransition fromSt ev toSt act grd).
Proof.
  unfold Tsm.next, Tsm.add, Tsm.addTransition.
  intros ->. simpl. apply lookup_insert_eq.
Qed.

Lemma Tsm_add_present M (fromSt : option nat) (ev ev' : Event) toSt act grd :
  id ev' = id ev →
  is_Some (Tsm.next (Tsm.table_ M) fromSt ev) →
  Tsm.table_ (Tsm.add fromSt ev' toSt act grd M) = Tsm.table_ M.
Proof.
  unfold Tsm.next, Tsm.add, Tsm.addTransition.
  intros -> [t ->]. reflexivity.
Qed.

Lemma Tsm_add_is_Some M (fromSt : option nat) (ev : Event) toSt act grd :
  is_Some (Tsm.next (Tsm.table_ (Tsm.add fromSt ev toSt act grd M)) fromSt ev).
Proof.
  destruct (Tsm.next (Tsm.table_ M) fromSt ev) as [t|] eqn:Hn.
  - rewrite (Tsm_add_present M fromSt ev ev) by (rewrite ?Hn; eauto).
    rewrite Hn. eauto.
  - rewrite Tsm_add_fresh by assumption. eauto.
Qed.

(** Entries are never removed or replaced by [add]. *)
Lemma Tsm_add_keeps M (fromSt : option nat) (ev : Event) toSt act grd k t :
  Tsm.table_ M !! k = Some t →
  Tsm.table_ (Tsm.add fromSt ev toSt act grd M) !! k = Some t.
Proof.
  unfold Tsm.add, Tsm.addTransition. intros Hk.
  destruct (Tsm.table_ M !! (fromSt, id ev)) as [t0|] eqn:Hn; simpl; [assumption|].
  rewrite lookup_insert_ne; [assumption|]. intros <-. congruence.
Qed.

Lemma Tsm_add_events M (fromSt : option nat) (ev : Event) toSt act grd :
  Tsm.getEvents (Tsm.add fromSt ev toSt act grd M) = {[ id ev ]} ∪ Tsm.getEvents M.
Proof.
  unfold Tsm.getEvents, Tsm.add, Tsm.addTransition. simpl.
  destruct (Tsm.table_ M !! (fromSt, id ev)); reflexivity.
Qed.
End TableFacts.

(** C2 (as the code has it).  In both tables a key [(fromState, event
    id)] is bound to one transition, and it is the first declaration that
    stays: a second [add] under a key with the same state and event id
    (whatever the event's data) leaves the stored transitions as they
    were, so [next] keeps returning the transition declared first, with
    its toState, action and guard. *)
Theorem C2_first_declaration_is_kept
    (tbl : TransitionH.StateTransitionTableT) (M : Tsm.StateMachine)
    (fromSt : nat) (ev ev' : EventH.Event)
    (to1 to2 : nat) (a1 a2 g1' g2' : option nat)
    (g1 g2 : option (EventH.Event → bool)) :
  EventH.id ev' = EventH.id ev →
  TransitionH.next tbl fromSt ev = None →
  Tsm.next (Tsm.table_ M) (Some fromSt) ev = None →
  (let tbl1 := TransitionH.add fromSt ev to1 a1 g1 tbl in
   let tbl2 := TransitionH.add fromSt ev' to2 a2 g2 tbl1 in
   TransitionH.data_ tbl2 = TransitionH.data_ tbl1
   ∧ TransitionH.next tbl2 fromSt ev = Some (TransitionH.mkTransition to1 a1 g1)
   ∧ TransitionH.next tbl2 fromSt ev' = Some (TransitionH.mkTransition to1 a1 g1))
  ∧
  (let M1 := Tsm.add (Some fromSt) ev (Some to1) a1 g1' M in
   let M2 := Tsm.add (Some fromSt) ev' (Some to2) a2 g2' M1 in
   Tsm.table_ M2 = Tsm.table_ M1
   ∧ Tsm.next (Tsm.table_ M2) (Some fromSt) ev
     = Some (Tsm.mkTransition (Some fromSt) ev (Some to1) a1 g1')
   ∧ Tsm.next (Tsm.table_ M2) (Some fromSt) ev'
     = Some (Tsm.mkTransition (Some fromSt) ev (Some to1) a1 g1')).
Proof.
  intros Hid Hn Hn'. split; cbv zeta.
  - assert (E : TransitionH.data_
                  (TransitionH.add fromSt ev' to2 a2 g2
                     (TransitionH.add fromSt ev to1 a1 g1 tbl))
                = TransitionH.data_ (TransitionH.add fromSt ev to1 a1 g1 tbl)).
    { apply (TH_add_present _ fromSt ev ev'); [assumption|]. apply TH_add_is_Some. }
    split; [exact E|].
    unfold TransitionH.next at 1 2. rewrite E, Hid.
    fold (TransitionH.next (TransitionH.add fromSt ev to1 a1 g1 tbl) fromSt ev).
    rewrite TH_add_fresh by assumption. split; reflexivity.
  - assert (E : Tsm.table_
                  (Tsm.add (Some fromSt) ev' (Some to2) a2 g2'
                     (Tsm.add (Some fromSt) ev (Some to1) a1 g1' M))
                = Tsm.table_ (Tsm.add (Some fromSt) ev (Some to1) a1 g1' M)).
    { apply (Tsm_add_present _ (Some fromSt) ev ev'); [assumption|].
      apply Tsm_add_is_Some. }
    split; [exact E|].
    rewrite E. unfold Tsm.next at 2. rewrite Hid.
    fold (Tsm.next (Tsm.table_ (Tsm.add (Some fromSt) ev (Some to1) a1 g1' M))
                   (Some fromSt) ev).
    rewrite Tsm_add_fresh by assumption. split; reflexivity.
Qed.

Lemma C2_first_declaration_is_kept_witness :
  TransitionH.next
    (TransitionH.add 1 (EventH.mkEvent 5 9) 3 None None
       (TransitionH.add 1 (EventH.mkEvent 5 0) 2 (Some 4%nat) None
          TransitionH.empty_table))
    1 (EventH.mkEvent 5 0)
  = Some (TransitionH.mkTransition 2 (Some 4%nat) None).
Proof.
  refine (proj1 (proj2 (proj1
    (C2_first_declaration_is_kept TransitionH.empty_table
       (Tsm.new_StateMachine (Some 1%nat) None None)
       1 (EventH.mkEvent 5 0) (EventH.mkEvent 5 9) 2 3 (Some 4%nat) None None None
       None None _ _ _)))).
  - reflexivity.
  - reflexivity.
  - reflexivity.
Defined.

(** C2 fails as stated: after [add(s1, e5, s2)] and then [add(s1, e5, s3)]
    the lookup gives the earlier toState [s2], not the later [s3], in the
    table of [Transition.h] and in the table of [tsm.h] alike. *)
Lemma C2_second_add_does_not_replace :
  let e5 := EventH.mkEvent 5 0 in
  TransitionH.toState <$>
    TransitionH.next
      (TransitionH.add 1 e5 3 None None
         (TransitionH.add 1 e5 2 None None TransitionH.empty_table)) 1 e5
  = Some 2%nat
  ∧ Tsm.toState <$>
      Tsm.next
        (Tsm.table_
           (Tsm.add (Some 1%nat) e5 (Some 3%nat) None None
              (Tsm.add (Some 1%nat) e5 (Some 2%nat) None None
                 (Tsm.new_StateMachine (Some 1%nat) None None))))
        (Some 1%nat) e5
    = Some (Some 2%nat).
Proof. split; vm_compute; reflexivity. Qed.

(** ** One pass through the dispatch loop of [tsm.h] *)

Section DispatchSteps.
Import EventH Tsm.
Variable U : Type.
Variable run_action : nat → U → U.
Variable eval_guard : nat → U → bool.

Abbreviation execute := (Tsm.execute run_action eval_guard).
Abbreviation acted := (Tsm.acted run_action).
Abbreviation passes := (Tsm.passes eval_guard).

Lemma heap_upd_ne (m s : nat) f (w : World U) :
  s ≠ m → heap (upd m f w) !! s = heap w !! s.
Proof. intros Hne. simpl. now rewrite lookup_alter_ne. Qed.

Lemma heap_upd_eq (m : nat) f (w : World U) :
  heap (upd m f w) !! m = f <$> heap w !! m.
Proof. simpl. now rewrite lookup_alter_eq. Qed.

Lemma heap_upd_None (m s : nat) f (w : World U) :
  heap w !! s = None → heap (upd m f w) !! s = None.
Proof. intros H. simpl. now apply lookup_alter_None. Qed.

(** Hooks and [execute] of a plain [State]. *)
Lemma OnExit_plain f (s : nat) (w : World U) :
  heap w !! s = None → OnExit (S f) s w = (Done, emit (EOnExit s) w).
Proof. intros H. simpl. now rewrite H. Qed.

Lemma OnEntry_plain f (s : nat) (w : World U) :
  heap w !! s = None → OnEntry (S f) s w = (Done, emit (EOnEntry s) w).
Proof. intros H. simpl. now rewrite H. Qed.

Lemma execute_plain f (s : nat) (w : World U) :
  heap w !! s = None → execute (S f) s w = (Done, emit (EExecute s) w).
Proof. intros H. simpl. now rewrite H. Qed.

(** The loop condition [while (!interrupt_)]. *)
Lemma execute_interrupted f (m : nat) (M : StateMachine) (w : World U) :
  heap w !! m = Some M → interrupt_ M = true →
  execute (S f) m w = (Done, w).
Proof. intros H Hi. simpl. now rewrite H, Hi. Qed.

Section Plain.
Variables (f : nat) (m : nat) (M : StateMachine) (w : World U).
Hypothesis Hm : heap w !! m = Some M.
Hypothesis Hrun : interrupt_ M = false.
Hypothesis Hplain : hsms_ M = None.

(** Line 150: the stop state is reached. *)
Lemma execute_at_stop :
  currentState_ M = getStopState M →
  execute (S f) m w = (Done, upd m (set_interrupt true) w).
Proof.
  intros Hs. simpl. rewrite Hm, Hrun, Hplain.
  destruct (decide (currentState_ M = getStopState M)); [reflexivity|contradiction].
Qed.

Variables (cur : nat) (e : Event) (q : EventQueue).
Hypothesis Hcur : currentState_ M = Some cur.
Hypothesis Hnostop : currentState_ M ≠ getStopState M.
Hypothesis Hq : nextEvent (queue w) = QHead e q.

Lemma execute_miss_parent (p : nat) :
  next (table_ M) (Some cur) e = None → parent_ M = Some p →
  execute (S f) m w
  = (Done, emit (EAddFront m e) (set_queue (addFront e q) (dequeued m e q w))).
Proof.
  intros Hn Hp. simpl. rewrite Hm, Hrun, Hplain.
  destruct (decide (currentState_ M = getStopState M)); [contradiction|].
  rewrite Hq, Hcur, Hn, Hp. reflexivity.
Qed.

Lemma execute_miss_root :
  next (table_ M) (Some cur) e = None → parent_ M = None →
  execute (S f) m w = execute f m (emit (EUnhandled m e) (dequeued m e q w)).
Proof.
  intros Hn Hp. simpl. rewrite Hm, Hrun, Hplain.
  destruct (decide (currentState_ M = getStopState M)); [contradiction|].
  rewrite Hq, Hcur, Hn, Hp. reflexivity.
Qed.

Lemma execute_guard_false (t : Transition) (g : nat) :
  next (table_ M) (Some cur) e = Some t →
  guard t = Some g → eval_guard g (user w) = false →
  execute (S f) m w = execute f m (emit (EGuardPrevented m e) (dequeued m e q w)).
Proof.
  intros Hn Hg Hev. simpl. rewrite Hm, Hrun, Hplain.
  destruct (decide (currentState_ M = getStopState M)); [contradiction|].
  rewrite Hq, Hcur, Hn, Hg. simpl. rewrite Hev. reflexivity.
Qed.

Lemma execute_hit (t : Transition) :
  next (table_ M) (Some cur) e = Some t → passes t w →
  execute (S f) m w
  = match doTransition f t (dequeued m e q w) with
    | (Done, w2, act) =>
        match toState t with
        | None => (NullDeref, acted m act (assigned m t w2))
        | Some s =>
            match execute f s (acted m act (assigned m t w2)) with
            | (Done, w5) => execute f m w5
            | r => r
            end
        end
    | (o, w2, _) => (o, w2)
    end.
Proof.
  intros Hn Hp. simpl. rewrite Hm, Hrun, Hplain.
  destruct (decide (currentState_ M = getStopState M)); [contradiction|].
  rewrite Hq, Hcur, Hn.
  destruct Hp as [Hg | (g & Hg & Hev)]; rewrite Hg; simpl.
  - reflexivity.
  - rewrite Hev. reflexivity.
Qed.
End Plain.
End DispatchSteps.

(** ** What every run preserves *)

Section Evolution.
Import EventH Tsm.
Variable U : Type.
Variable run_action : nat → U → U.
Variable eval_guard : nat → U → bool.
Abbreviation execute := (Tsm.execute run_action eval_guard).
Implicit Types w : World U.

Lemma taken_from_app acc (tr1 tr2 : list Effect) :
  taken_from acc (tr1 ++ tr2) = taken_from (taken_from acc tr1) tr2.
Proof.
  revert acc. induction tr1 as [|x tr1 IH]; intros acc; [reflexivity|].
  destruct x; simpl; apply IH.
Qed.

Lemma taken_snoc_quiet (tr : list Effect) x : quiet x → taken (tr ++ [x]) = taken tr.
Proof.
  intros Hx. unfold taken. rewrite taken_from_app.
  destruct x; simpl in *; try reflexivity; contradiction.
Qed.

Lemma taken_snoc_dequeue (tr : list Effect) (m : nat) e :
  taken (tr ++ [EDequeue m e]) = taken tr ++ [(m, e)].
Proof. unfold taken. now rewrite taken_from_app. Qed.

Lemma taken_snoc_addFront (tr : list Effect) (m : nat) e :
  taken (tr ++ [EAddFront m e]) = removelast (taken tr).
Proof. unfold taken. now rewrite taken_from_app. Qed.

(** A world that differs in neither trace nor queue. *)
Lemma evolves_inert w w' :
  same_static w w' → (world_ok w → world_ok w') →
  trace w' = trace w → events (queue w') = events (queue w) →
  evolves w w'.
Proof.
  intros Hs Hk Ht Hq. unfold evolves, conserved.
  split; [exact Hs|]. split; [exists []; now rewrite app_nil_r|].
  split; [exact Hk|]. now rewrite Ht, Hq.
Qed.

Lemma evolves_refl w : evolves w w.
Proof. apply evolves_inert; unfold same_static; auto. Qed.

Lemma evolves_trans w1 w2 w3 : evolves w1 w2 → evolves w2 w3 → evolves w1 w3.
Proof.
  intros (Hs & [tr Ht] & Hk & Hc) (Hs' & [tr' Ht'] & Hk' & Hc').
  split; [|split; [|split]].
  - intros s. now rewrite Hs, Hs'.
  - exists (tr ++ tr'). now rewrite Ht', Ht, app_assoc.
  - auto.
  - unfold conserved in *. now rewrite Hc', Hc.
Qed.

Lemma evolves_emit x w : quiet x → evolves w (emit x w).
Proof.
  intros Hx. unfold evolves, same_static, conserved.
  split; [auto|]. split; [now exists [x]|]. split; [auto|].
  simpl. now rewrite taken_snoc_quiet.
Qed.

(** [eventQueue_.stop()] changes the flag only. *)
Lemma evolves_stop q w : events q = events (queue w) → evolves w (set_queue q w).
Proof. intros Hq. apply evolves_inert; unfold same_static; auto. Qed.

(** [eventQueue_.nextEvent()] hands out the head. *)
Lemma evolves_dequeue (m : nat) e q w :
  nextEvent (queue w) = QHead e q → evolves w (dequeued m e q w).
Proof.
  intros Hq. unfold evolves, same_static, conserved.
  split; [auto|]. split; [now exists [EDequeue m e]|]. split; [auto|].
  simpl. rewrite taken_snoc_dequeue, fmap_app. simpl.
  unfold nextEvent in Hq. destruct (stopped (queue w)); [discriminate|].
  destruct (events (queue w)) as [|x rest]; [discriminate|].
  injection Hq as -> <-. simpl. now rewrite <- app_assoc.
Qed.

(** [eventQueue_.addFront(nextEvent)] right after that dequeue. *)
Lemma evolves_putback (m : nat) e q w :
  evolves (dequeued m e q w)
          (emit (EAddFront m e) (set_queue (addFront e q) (dequeued m e q w))).
Proof.
  unfold evolves, same_static, conserved.
  split; [auto|]. split; [now exists [EAddFront m e]|]. split; [auto|].
  simpl. rewrite taken_snoc_addFront, taken_snoc_dequeue, removelast_last.
  rewrite fmap_app. simpl. now rewrite <- app_assoc.
Qed.

Lemma evolves_set_user u w : evolves w (set_user u w).
Proof. apply evolves_inert; unfold same_static; auto. Qed.

Lemma evolves_upd (m : nat) (g : StateMachine → StateMachine) w :
  (∀ M, static (g M) = static M) →
  (∀ M, heap w !! m = Some M → current_ok M → current_ok (g M)) →
  evolves w (upd m g w).
Proof.
  intros Hst Hok. apply evolves_inert; try reflexivity.
  - intros s. simpl. rewrite lookup_alter. case_decide; [subst|reflexivity].
    destruct (heap w !! s); simpl; [|reflexivity]. now rewrite Hst.
  - unfold world_ok. simpl. intros Hw i x. rewrite lookup_alter.
    case_decide; [subst|apply Hw].
    destruct (heap w !! i) as [M|] eqn:HM; simpl; [|discriminate].
    intros [= <-]. apply Hok; [reflexivity|]. exact (Hw i M HM).
Qed.

Lemma current_ok_same_current (M M' : StateMachine) :
  static M' = static M → currentState_ M' = currentState_ M →
  current_ok M → current_ok M'.
Proof.
  unfold static, current_ok. intros [= Hs _ Ht _ _ _] Hc. rewrite Hc, Hs, Ht. auto.
Qed.

Lemma evolves_set_interrupt (m : nat) b w : evolves w (upd m (set_interrupt b) w).
Proof.
  apply evolves_upd; [reflexivity|]. intros M _.
  now apply current_ok_same_current.
Qed.

Lemma evolves_set_thread (m : nat) b w : evolves w (upd m (set_thread b) w).
Proof.
  apply evolves_upd; [reflexivity|]. intros M _.
  now apply current_ok_same_current.
Qed.

Lemma evolves_set_current_None (m : nat) w : evolves w (upd m (set_current None) w).
Proof. apply evolves_upd; [reflexivity|]. intros M _ _. now left. Qed.

Lemma evolves_set_current_start (m : nat) M w :
  heap w !! m = Some M → evolves w (upd m (set_current (getStartState M)) w).
Proof.
  intros HM. apply evolves_upd; [reflexivity|].
  intros M' HM' _. assert (M' = M) as -> by congruence. right; left. reflexivity.
Qed.

Lemma evolves_set_current_to (m : nat) M k t w :
  heap w !! m = Some M → table_ M !! k = Some t →
  evolves w (upd m (set_current (toState t)) w).
Proof.
  intros HM Ht. apply evolves_upd; [reflexivity|].
  intros M' HM' _. assert (M' = M) as -> by congruence.
  right; right. exists k, t. split; [exact Ht|reflexivity].
Qed.

(** A machine keeps its table from one world to a later one. *)
Lemma evolves_lookup w w' (m : nat) M :
  evolves w w' → heap w !! m = Some M →
  ∃ M', heap w' !! m = Some M' ∧ static M' = static M.
Proof.
  intros (Hs & _) HM. specialize (Hs m). rewrite HM in Hs. simpl in Hs.
  destruct (heap w' !! m) as [M'|]; [|discriminate].
  exists M'. split; [reflexivity|]. simpl in Hs. congruence.
Qed.

Lemma evolves_lookup_None w w' (s : nat) :
  evolves w w' → heap w !! s = None → heap w' !! s = None.
Proof.
  intros (Hs & _) HM. specialize (Hs s). rewrite HM in Hs. simpl in Hs.
  destruct (heap w' !! s); [discriminate|reflexivity].
Qed.

Ltac evo_step :=
  first [ apply evolves_emit; exact I | apply evolves_stop; reflexivity
        | apply evolves_putback
        | apply evolves_set_user | apply evolves_set_interrupt
        | apply evolves_set_thread | apply evolves_set_current_None ].

Ltac evo_chain :=
  repeat first [ apply evolves_refl | evo_step | eapply evolves_trans; [|evo_step] ].

Lemma evolves_startHSM (m : nat) w : evolves w (snd (startHSM m w)).
Proof.
  unfold startHSM. destruct (heap w !! m) as [M|] eqn:HM; [|apply evolves_refl].
  assert (E : evolves w (emit (ECurrent m (getStartState M))
                           (upd m (set_current (getStartState M)) w))).
  { eapply evolves_trans; [|apply evolves_emit; exact I].
    now apply evolves_set_current_start. }
  destruct (parent_ M); [exact E|].
  destruct (smThread_ M); [exact E|]. simpl.
  eapply evolves_trans; [exact E|]. evo_chain.
Qed.

Lemma evolves_stopHSM (m : nat) w : evolves w (snd (stopHSM m w)).
Proof.
  unfold stopHSM. destruct (heap w !! m) as [M|] eqn:HM; [|apply evolves_refl].
  destruct (parent_ M); [apply evolves_set_interrupt|].
  destruct (smThread_ M); simpl; evo_chain.
Qed.

Lemma evolves_OnExit_base (m : nat) w : evolves w (snd (OnExit_base m w)).
Proof.
  unfold OnExit_base. eapply evolves_trans; [|apply evolves_stopHSM]. evo_chain.
Qed.

Lemma evolves_OnEntry fuel : ∀ (s : nat) w, evolves w (snd (OnEntry fuel s w)).
Proof.
  induction fuel as [|f IH]; intros s w; simpl; [apply evolves_refl|].
  destruct (heap w !! s) as [M|]; [|apply evolves_emit; exact I].
  destruct (hsms_ M) as [[h1 h2]|]; [|apply evolves_startHSM].
  pose proof (IH h1 w) as E1. destruct (OnEntry f h1 w) as [o1 w1]. simpl in E1.
  destruct o1; try exact E1.
  pose proof (IH h2 w1) as E2. destruct (OnEntry f h2 w1) as [o2 w2]. simpl in E2.
  destruct o2; try (eapply evolves_trans; [exact E1|exact E2]).
  eapply evolves_trans; [exact E1|]. eapply evolves_trans; [exact E2|].
  apply evolves_startHSM.
Qed.

Lemma evolves_OnExit fuel : ∀ (s : nat) w, evolves w (snd (OnExit fuel s w)).
Proof.
  induction fuel as [|f IH]; intros s w; simpl; [apply evolves_refl|].
  destruct (heap w !! s) as [M|]; [|apply evolves_emit; exact I].
  destruct (hsms_ M) as [[h1 h2]|]; [|apply evolves_OnExit_base].
  pose proof (IH h1 w) as E1. destruct (OnExit f h1 w) as [o1 w1]. simpl in E1.
  destruct o1; try exact E1.
  pose proof (IH h2 w1) as E2. destruct (OnExit f h2 w1) as [o2 w2]. simpl in E2.
  destruct o2; try (eapply evolves_trans; [exact E1|exact E2]).
  eapply evolves_trans; [exact E1|]. eapply evolves_trans; [exact E2|].
  apply evolves_OnExit_base.
Qed.

Lemma evolves_doTransition fuel t w :
  evolves w (snd (fst (doTransition fuel t w))).
Proof.
  unfold doTransition.
  destruct (fromState t) as [a|]; [|apply evolves_refl].
  destruct (toState t) as [b|]; [|apply evolves_refl].
  pose proof (evolves_OnExit fuel a w) as E1.
  destruct (OnExit fuel a w) as [o1 w1]. simpl in E1.
  destruct o1; try exact E1.
  pose proof (evolves_OnEntry fuel b w1) as E2.
  destruct (OnEntry fuel b w1) as [o2 w2]. simpl in *.
  eapply evolves_trans; [exact E1|exact E2].
Qed.

Lemma evolves_acted (m : nat) act w : evolves w (acted run_action m act w).
Proof. destruct act; simpl; [|apply evolves_refl]. evo_chain. Qed.

Lemma evolves_execute fuel : ∀ (m : nat) w, evolves w (snd (execute fuel m w)).
Proof.
  induction fuel as [|f IH]; intros m w; simpl; [apply evolves_refl|].
  destruct (heap w !! m) as [M|] eqn:HM; [|apply evolves_emit; exact I].
  destruct (interrupt_ M); [apply evolves_refl|].
  destruct (hsms_ M) as [[h1 h2]|].
  - (* OrthogonalHSM::execute *)
    pose proof (IH h1 w) as E1. destruct (execute f h1 w) as [o1 w1]. simpl in E1.
    destruct o1; try exact E1.
    pose proof (IH h2 w1) as E2. destruct (execute f h2 w1) as [o2 w2]. simpl in E2.
    assert (E12 : evolves w w2) by (eapply evolves_trans; eauto).
    destruct o2; try exact E12.
    destruct (nextEvent (queue w2)) as [| |e q] eqn:Hq.
    + destruct (negb (interrupt_of m w2)); exact E12.
    + exact E12.
    + assert (E3 : evolves w (dequeued m e q w2)).
      { eapply evolves_trans; [exact E12|now apply evolves_dequeue]. }
      assert (E4 : evolves w (emit (EAddFront m e)
                                (set_queue (addFront e q) (dequeued m e q w2)))).
      { eapply evolves_trans; [exact E3|apply evolves_putback]. }
      case_decide.
      * eapply evolves_trans; [exact E4|apply IH].
      * destruct (parent_of m _).
        -- exact E4.
        -- eapply evolves_trans; [|apply IH].
           eapply evolves_trans; [exact E3|apply evolves_emit; exact I].
  - (* StateMachine::execute *)
    case_decide; [apply evolves_set_interrupt|].
    destruct (nextEvent (queue w)) as [| |e q] eqn:Hq.
    + destruct (negb (interrupt_of m w)); apply evolves_refl.
    + apply evolves_refl.
    + assert (E1 : evolves w (dequeued m e q w)) by now apply evolves_dequeue.
      destruct (currentState_ M) as [cur|] eqn:Hcur; [|exact E1].
      destruct (next (table_ M) (Some cur) e) as [t|] eqn:Hn.
      * destruct (negb _ || _).
        -- pose proof (evolves_doTransition f t (dequeued m e q w)) as E2.
           change (emit (EDequeue m e) (set_queue q w)) with (dequeued m e q w).
           destruct (doTransition f t (dequeued m e q w)) as [[o2 w2] act].
           simpl in E2.
           assert (E12 : evolves w w2) by (eapply evolves_trans; eauto).
           destruct o2; try exact E12.
           destruct (evolves_lookup _ _ m M E12 HM) as (M2 & HM2 & Hst).
           assert (Ht2 : table_ M2 !! (Some cur, id e) = Some t).
           { unfold static in Hst. injection Hst as _ _ -> _ _ _. exact Hn. }
           pose (w3 := emit (ECurrent m (toState t)) (upd m (set_current (toState t)) w2)).
           assert (E3 : evolves w w3).
           { eapply evolves_trans; [exact E12|]. unfold w3.
             eapply evolves_trans; [|apply evolves_emit; exact I].
             eapply evolves_set_current_to; eauto. }
           assert (E4 : evolves w (acted run_action m act w3)).
           { eapply evolves_trans; [exact E3|]. apply evolves_acted. }
           destruct (toState t) as [s|]; [|exact E4].
           match goal with
           | |- context [Tsm.execute run_action eval_guard f s ?W] =>
               pose proof (IH s W) as E5;
               destruct (Tsm.execute run_action eval_guard f s W) as [o5 w5]
           end.
           simpl in E5.
           assert (E45 : evolves w w5) by (eapply evolves_trans; [exact E4|exact E5]).
           destruct o5; try exact E45.
           eapply evolves_trans; [exact E45|apply IH].
        -- eapply evolves_trans; [|apply IH].
           eapply evolves_trans; [exact E1|apply evolves_emit; exact I].
      * destruct (parent_ M).
        -- eapply evolves_trans; [exact E1|apply evolves_putback].
        -- eapply evolves_trans; [|apply IH].
           eapply evolves_trans; [exact E1|apply evolves_emit; exact I].
Qed.
End Evolution.

(** ** Transitions between plain states, and what follows a dequeue *)

Section PlainTransitions.
Import EventH Tsm.
Variable U : Type.
Variable run_action : nat → U → U.
Variable eval_guard : nat → U → bool.
Abbreviation execute := (Tsm.execute run_action eval_guard).
Abbreviation acted := (Tsm.acted run_action).
Abbreviation passes := (Tsm.passes eval_guard).
Abbreviation transitioned := (Tsm.transitioned run_action).

Variables (f : nat) (m : nat) (M : StateMachine) (w : World U).
Variables (cur : nat) (e : Event) (q : EventQueue).
Hypothesis Hm : heap w !! m = Some M.
Hypothesis Hrun : interrupt_ M = false.
Hypothesis Hplain : hsms_ M = None.
Hypothesis Hcur : currentState_ M = Some cur.
Hypothesis Hnostop : currentState_ M ≠ getStopState M.
Hypothesis Hq : nextEvent (queue w) = QHead e q.

Lemma heap_acted (act : option nat) (w3 : World U) : heap (acted m act w3) = heap w3.
Proof. destruct act; reflexivity. Qed.

Lemma queue_acted (act : option nat) (w3 : World U) : queue (acted m act w3) = queue w3.
Proof. destruct act; reflexivity. Qed.

Lemma trace_acted (act : option nat) (w3 : World U) :
  trace (acted m act w3)
  = trace w3 ++ match act with Some a => [EAction m a] | None => [] end.
Proof. destruct act; simpl; [reflexivity|now rewrite app_nil_r]. Qed.

Lemma doTransition_plain (t : Transition) (a b : nat) (w0 : World U) :
  fromState t = Some a → toState t = Some b →
  heap w0 !! a = None → heap w0 !! b = None →
  doTransition (S f) t w0
  = (Done, emit (EOnEntry b) (emit (EOnExit a) w0), action t).
Proof.
  intros Ha Hb Hna Hnb. unfold doTransition. rewrite Ha, Hb.
  rewrite OnExit_plain by assumption.
  rewrite OnEntry_plain by assumption. reflexivity.
Qed.

Lemma execute_hit_plain (t : Transition) (a b : nat) :
  next (table_ M) (Some cur) e = Some t → passes t w →
  fromState t = Some a → toState t = Some b →
  heap w !! a = None → heap w !! b = None →
  execute (S (S f)) m w = execute (S f) m (transitioned m e q t a b w).
Proof.
  intros Hn Hp Ha Hb Hna Hnb.
  rewrite (execute_hit U run_action eval_guard (S f) m M w Hm Hrun Hplain
             cur e q Hcur Hnostop Hq t Hn Hp).
  rewrite (doTransition_plain t a b) by assumption.
  rewrite Hb.
  rewrite execute_plain.
  - reflexivity.
  - rewrite heap_acted. simpl. apply lookup_alter_None. exact Hnb.
Qed.

Lemma trace_transitioned (t : Transition) (a b : nat) :
  toState t = Some b →
  trace (transitioned m e q t a b w)
  = trace w ++ [EDequeue m e; EOnExit a; EOnEntry b; ECurrent m (Some b)]
      ++ match action t with Some x => [EAction m x] | None => [] end
      ++ [EExecute b].
Proof.
  intros Hb. unfold Tsm.transitioned.
  cbn [trace emit]. rewrite trace_acted.
  unfold assigned, dequeued. cbn [trace emit upd set_queue].
  rewrite Hb. rewrite <- !app_assoc. reflexivity.
Qed.

Lemma queue_transitioned (t : Transition) (a b : nat) :
  queue (transitioned m e q t a b w) = q.
Proof. unfold Tsm.transitioned. simpl. now rewrite queue_acted. Qed.

Lemma heap_transitioned (t : Transition) (a b : nat) :
  heap (transitioned m e q t a b w) = <[m := set_current (toState t) M]> (heap w).
Proof.
  unfold Tsm.transitioned. simpl. rewrite heap_acted. simpl.
  apply map_eq. intros i. rewrite lookup_alter, lookup_insert.
  case_decide; [subst; now rewrite Hm|reflexivity].
Qed.


End PlainTransitions.

(** ** Taking a transition *)

Section TransitionFacts.
Import EventH.

Lemma TH_doTransition_taken (t : TransitionH.Transition) (hsm : TransitionH.Fsm)
    (e : Event) (cur : nat) :
  TransitionH.currentState hsm = Some cur →
  (TransitionH.guard t = None
   ∨ ∃ g, TransitionH.guard t = Some g ∧ g e = true) →
  TransitionH.doTransition t hsm e
  = Some (true,
          TransitionH.mkFsm (Some (TransitionH.toState t))
            (TransitionH.trace hsm
             ++ [TransitionH.OnExit cur e]
             ++ match TransitionH.action t with
                | Some a => [TransitionH.Action a e]
                | None => []
                end
             ++ [TransitionH.SetCurrentState (TransitionH.toState t);
                 TransitionH.OnEntry (TransitionH.toState t) e])).
Proof.
  intros Hc Hg. unfold TransitionH.doTransition, TransitionH.getCurrentState.
  rewrite Hc.
  assert (Hpass : negb (bool_decide (is_Some (TransitionH.guard t)))
                  || match TransitionH.guard t with
                     | Some g => g e
                     | None => false
                     end = true).
  { destruct Hg as [-> | (g & -> & ->)]; reflexivity. }
  rewrite Hpass.
  destruct (TransitionH.action t);
    unfold TransitionH.emit, TransitionH.setCurrentState; simpl;
    rewrite <- ?app_assoc; reflexivity.
Qed.

Lemma TH_doTransition_rejected (t : TransitionH.Transition) (hsm : TransitionH.Fsm)
    (e : Event) (g : Event → bool) :
  TransitionH.guard t = Some g → g e = false →
  TransitionH.doTransition t hsm e = Some (false, hsm).
Proof.
  intros Hg He. unfold TransitionH.doTransition. rewrite Hg. simpl.
  rewrite He. reflexivity.
Qed.
End TransitionFacts.

Section TakenTransitions.
Import EventH Tsm.
Variable U : Type.
Variable run_action : nat → U → U.
Variable eval_guard : nat → U → bool.
Abbreviation execute := (Tsm.execute run_action eval_guard).
Abbreviation acted := (Tsm.acted run_action).
Abbreviation passes := (Tsm.passes eval_guard).
Abbreviation transitioned := (Tsm.transitioned run_action).

(** C3 (as the code has it).  A transition that is hit with its guard
    absent or passing has its effects in a fixed order, which differs
    between the two dispatchers.  [Transition::doTransition] of
    [Transition.h]: onExit(e) of the current state, the action if any,
    the assignment of toState to the current state, onEntry(e) of
    toState.  [StateMachine::execute] of [tsm.h]: the transition's
    [doTransition()], then the assignment [currentState_ = toState],
    then the action if any, then [execute()] of toState, and then the
    loop goes round again; between plain states that is the trace
    dequeue, exit, entry, assignment, action, execute, so the action
    runs after the assignment and not before it. *)
Theorem C3_effects_of_a_taken_transition
    (t : TransitionH.Transition) (hsm : TransitionH.Fsm) (e : Event) (cur : nat)
    (f m : nat) (M : StateMachine) (w : World U) (c : nat) (ev : Event)
    (q : EventQueue) (t' : Transition) (a b : nat) :
  TransitionH.currentState hsm = Some cur →
  (TransitionH.guard t = None
   ∨ ∃ g, TransitionH.guard t = Some g ∧ g e = true) →
  heap w !! m = Some M → interrupt_ M = false → hsms_ M = None →
  currentState_ M = Some c → currentState_ M ≠ getStopState M →
  nextEvent (queue w) = QHead ev q →
  next (table_ M) (Some c) ev = Some t' → passes t' w →
  fromState t' = Some a → toState t' = Some b →
  heap w !! a = None → heap w !! b = None →
  TransitionH.doTransition t hsm e
  = Some (true,
          TransitionH.mkFsm (Some (TransitionH.toState t))
            (TransitionH.trace hsm
             ++ [TransitionH.OnExit cur e]
             ++ match TransitionH.action t with
                | Some x => [TransitionH.Action x e]
                | None => []
                end
             ++ [TransitionH.SetCurrentState (TransitionH.toState t);
                 TransitionH.OnEntry (TransitionH.toState t) e]))
  ∧ execute (S f) m w
    = match doTransition f t' (dequeued m ev q w) with
      | (Done, w2, act) =>
          match toState t' with
          | None => (NullDeref, acted m act (assigned m t' w2))
          | Some s =>
              match execute f s (acted m act (assigned m t' w2)) with
              | (Done, w5) => execute f m w5
              | r => r
              end
          end
      | (o, w2, _) => (o, w2)
      end
  ∧ execute (S (S f)) m w = execute (S f) m (transitioned m ev q t' a b w)
  ∧ trace (transitioned m ev q t' a b w)
    = trace w ++ [EDequeue m ev; EOnExit a; EOnEntry b; ECurrent m (Some b)]
        ++ match action t' with Some x => [EAction m x] | None => [] end
        ++ [EExecute b].
Proof.
  intros Hc Hg Hm Hrun Hplain Hcur Hnostop Hq Hn Hp Ha Hb Hna Hnb.
  split; [now apply TH_doTransition_taken|].
  split; [eapply execute_hit; eauto|].
  split; [eapply execute_hit_plain; eauto|].
  now apply trace_transitioned.
Qed.

Lemma current_of_transitioned (m : nat) (M : StateMachine) (w : World U)
    (e : Event) (q : EventQueue) (t : Transition) (a b : nat) :
  heap w !! m = Some M →
  current_of m (transitioned m e q t a b w) = toState t.
Proof.
  intros Hm. unfold current_of. rewrite (heap_transitioned U run_action m M w e q Hm).
  now rewrite lookup_insert_eq.
Qed.

(** C4.  A transition without a guard is taken: [doTransition] of
    [Transition.h] answers true and the current state is toState, and
    the loop of [tsm.h] goes into the transition (and, between plain
    states, comes out of it with toState as current state).  A guard that
    answers false leaves everything as it was: [doTransition] answers
    false with the machine untouched, and the loop of [tsm.h] has used up
    the event and goes round again with the same machines, the only
    effects being the dequeue and the log line, so no exit, action or
    entry has run. *)
Theorem C4_guard_decides
    (t : TransitionH.Transition) (hsm : TransitionH.Fsm) (e : Event) (cur : nat)
    (f m : nat) (M : StateMachine) (w : World U) (c : nat) (ev : Event)
    (q : EventQueue) (t' : Transition) :
  TransitionH.currentState hsm = Some cur →
  heap w !! m = Some M → interrupt_ M = false → hsms_ M = None →
  currentState_ M = Some c → currentState_ M ≠ getStopState M →
  nextEvent (queue w) = QHead ev q →
  next (table_ M) (Some c) ev = Some t' →
  (TransitionH.guard t = None →
   ∃ h', TransitionH.doTransition t hsm e = Some (true, h')
         ∧ TransitionH.currentState h' = Some (TransitionH.toState t))
  ∧ (∀ g, TransitionH.guard t = Some g → g e = false →
          TransitionH.doTransition t hsm e = Some (false, hsm))
  ∧ (guard t' = None →
     execute (S f) m w
     = match doTransition f t' (dequeued m ev q w) with
       | (Done, w2, act) =>
           match toState t' with
           | None => (NullDeref, acted m act (assigned m t' w2))
           | Some s =>
               match execute f s (acted m act (assigned m t' w2)) with
               | (Done, w5) => execute f m w5
               | r => r
               end
           end
       | (o, w2, _) => (o, w2)
       end)
  ∧ (∀ a b : nat,
        guard t' = None → fromState t' = Some a → toState t' = Some b →
        heap w !! a = None → heap w !! b = None →
        execute (S (S f)) m w = execute (S f) m (transitioned m ev q t' a b w)
        ∧ current_of m (transitioned m ev q t' a b w) = Some b)
  ∧ (∀ g, guard t' = Some g → eval_guard g (user w) = false →
          let w' := emit (EGuardPrevented m ev) (dequeued m ev q w) in
          execute (S f) m w = execute f m w'
          ∧ heap w' = heap w
          ∧ current_of m w' = Some c
          ∧ queue w' = q
          ∧ user w' = user w
          ∧ trace w' = trace w ++ [EDequeue m ev; EGuardPrevented m ev]).
Proof.
  intros Hc Hm Hrun Hplain Hcur Hnostop Hq Hn.
  split; [|split; [|split; [|split]]].
  - intros Hg. eexists. split.
    + apply TH_doTransition_taken; [exact Hc|left; exact Hg].
    + reflexivity.
  - intros g Hg He. now apply (TH_doTransition_rejected t hsm e g).
  - intros Hg. eapply execute_hit; eauto. left; exact Hg.
  - intros a b Hg Ha Hb Hna Hnb. split.
    + eapply execute_hit_plain; eauto. left; exact Hg.
    + rewrite (current_of_transitioned m M) by assumption. exact Hb.
  - intros g Hg Hev. cbv zeta. split; [eapply execute_guard_false; eauto|].
    split; [reflexivity|]. split.
    + unfold current_of. simpl. now rewrite Hm.
    + split; [reflexivity|]. split; [reflexivity|].
      simpl. now rewrite <- app_assoc.
Qed.
End TakenTransitions.

Lemma C3_effects_of_a_taken_transition_witness :
  Tsm.trace
    (Tsm.transitioned Samples.sample_action 0 (Samples.ev 5)
       (Tsm.mkQueue [] false)
       (Tsm.mkTransition (Some 1%nat) (Samples.ev 5) (Some 2%nat) (Some 7%nat) None)
       1 2
       (Samples.one_step_world (Some 7%nat) None None None [Samples.ev 5]))
  = [] ++ [Tsm.EDequeue 0 (Samples.ev 5); Tsm.EOnExit 1; Tsm.EOnEntry 2;
           Tsm.ECurrent 0 (Some 2%nat)]
       ++ [Tsm.EAction 0 7] ++ [Tsm.EExecute 2].
Proof.
  refine (proj2 (proj2 (proj2
    (C3_effects_of_a_taken_transition (list nat) Samples.sample_action
       Samples.sample_guard
       (TransitionH.mkTransition 2 (Some 7%nat) None)
       (TransitionH.mkFsm (Some 1%nat) []) (Samples.ev 5) 1
       0 0 (Samples.one_step (Some 7%nat) None None None)
       (Samples.one_step_world (Some 7%nat) None None None [Samples.ev 5])
       1 (Samples.ev 5) (Tsm.mkQueue [] false)
       (Tsm.mkTransition (Some 1%nat) (Samples.ev 5) (Some 2%nat) (Some 7%nat) None)
       1 2 _ _ _ _ _ _ _ _ _ _ _ _ _ _)))).
  - reflexivity.
  - left. reflexivity.
  - reflexivity.
  - reflexivity.
  - reflexivity.
  - reflexivity.
  - vm_compute. discriminate.
  - reflexivity.
  - reflexivity.
  - left. reflexivity.
  - reflexivity.
  - reflexivity.
  - reflexivity.
  - reflexivity.
Defined.

(** C3 fails as stated on [StateMachine::execute]: machine 0 in state 1
    takes its transition on event 5 to state 2 with action 7; the
    assignment of the current state comes before the action, and the
    action is not between exit and entry. *)
Lemma C3_action_runs_after_the_assignment :
  Tsm.trace (snd (Samples.run 3 0
                    (Samples.one_step_world (Some 7%nat) None None None [Samples.ev 5])))
  = [Tsm.EDequeue 0 (Samples.ev 5); Tsm.EOnExit 1; Tsm.EOnEntry 2;
     Tsm.ECurrent 0 (Some 2%nat); Tsm.EAction 0 7; Tsm.EExecute 2]
  ∧ Tsm.trace (snd (Samples.run 3 0
                    (Samples.one_step_world (Some 7%nat) None None None [Samples.ev 5])))
    ≠ [Tsm.EDequeue 0 (Samples.ev 5); Tsm.EOnExit 1; Tsm.EAction 0 7;
       Tsm.ECurrent 0 (Some 2%nat); Tsm.EOnEntry 2; Tsm.EExecute 2].
Proof. split; [vm_compute; reflexivity|vm_compute; discriminate]. Qed.

Lemma C4_guard_decides_witness :
  let w := Samples.one_step_world (Some 7%nat) (Some 0%nat) None None [Samples.ev 5] in
  let w' := Tsm.emit (Tsm.EGuardPrevented 0 (Samples.ev 5))
              (Tsm.dequeued 0 (Samples.ev 5) (Tsm.mkQueue [] false) w) in
  Samples.run 1 0 w = Samples.run 0 0 w'
  ∧ Tsm.heap w' = Tsm.heap w
  ∧ Tsm.current_of 0 w' = Some 1%nat
  ∧ Tsm.queue w' = Tsm.mkQueue [] false
  ∧ Tsm.user w' = Tsm.user w
  ∧ Tsm.trace w' = Tsm.trace w ++ [Tsm.EDequeue 0 (Samples.ev 5);
                                   Tsm.EGuardPrevented 0 (Samples.ev 5)].
Proof.
  refine (proj2 (proj2 (proj2 (proj2
    (C4_guard_decides (list nat) Samples.sample_action Samples.sample_guard
       (TransitionH.mkTransition 2 (Some 7%nat) None)
       (TransitionH.mkFsm (Some 1%nat) []) (Samples.ev 5) 1
       0 0 (Samples.one_step (Some 7%nat) (Some 0%nat) None None)
       (Samples.one_step_world (Some 7%nat) (Some 0%nat) None None [Samples.ev 5])
       1 (Samples.ev 5) (Tsm.mkQueue [] false)
       (Tsm.mkTransition (Some 1%nat) (Samples.ev 5) (Some 2%nat) (Some 7%nat)
          (Some 0%nat))
       _ _ _ _ _ _ _ _)))) 0%nat _ _).
  - reflexivity.
  - reflexivity.
  - reflexivity.
  - reflexivity.
  - reflexivity.
  - vm_compute. discriminate.
  - reflexivity.
  - reflexivity.
  - reflexivity.
  - reflexivity.
Defined.

(** ** Starting and stopping *)

Section Lifecycle.
Import EventH Tsm.
Variable U : Type.

Lemma startHSM_child (m p : nat) (M : StateMachine) (w : World U) :
  heap w !! m = Some M → parent_ M = Some p →
  startHSM m w
  = (Done, emit (ECurrent m (getStartState M))
                (upd m (set_current (getStartState M)) w)).
Proof. intros Hm Hp. unfold startHSM. now rewrite Hm, Hp. Qed.

Lemma startHSM_root (m : nat) (M : StateMachine) (w : World U) :
  heap w !! m = Some M → parent_ M = None → smThread_ M = false →
  startHSM m w
  = (Done, emit (ESpawn m)
             (upd m (set_thread true)
                (emit (ECurrent m (getStartState M))
                   (upd m (set_current (getStartState M)) w)))).
Proof. intros Hm Hp Ht. unfold startHSM. now rewrite Hm, Hp, Ht. Qed.

Lemma startHSM_root_again (m : nat) (M : StateMachine) (w : World U) :
  heap w !! m = Some M → parent_ M = None → smThread_ M = true →
  startHSM m w
  = (StdTerminate, emit (ECurrent m (getStartState M))
                        (upd m (set_current (getStartState M)) w)).
Proof. intros Hm Hp Ht. unfold startHSM. now rewrite Hm, Hp, Ht. Qed.

Lemma current_of_startHSM (m : nat) (M : StateMachine) (w : World U) :
  heap w !! m = Some M →
  current_of m (snd (startHSM m w)) = getStartState M.
Proof.
  intros Hm. unfold startHSM. rewrite Hm.
  destruct (parent_ M); [|destruct (smThread_ M)];
    unfold current_of; simpl; rewrite ?lookup_alter_eq, Hm; reflexivity.
Qed.

Lemma interrupt_of_stopHSM (m : nat) (M : StateMachine) (w : World U) :
  heap w !! m = Some M →
  interrupt_of m (snd (stopHSM m w)) = true.
Proof.
  intros Hm. unfold stopHSM. rewrite Hm.
  destruct (parent_ M); [|destruct (smThread_ M)];
    unfold interrupt_of; simpl; rewrite ?lookup_alter_eq, Hm; reflexivity.
Qed.

(** C5 (as the code has it).  [startHSM], which is all that
    [StateMachine::OnEntry] does, assigns the declared start state to
    the current state and, when the machine has no parent (and no worker
    yet), spawns the worker thread; a machine with a parent spawns
    nothing.  These are its only effects: the entry hook of the start
    state is not called.  Under [AsyncExecutionPolicy] [onEntry] runs the
    wrapped [onEntry] and then starts the worker. *)
Theorem C5_start_assigns_and_spawns
    (f m p : nat) (M : StateMachine) (w : World U)
    (St : Type) (enter : Event → St → St) (e : Event)
    (pol : AsyncH.AsyncExecutionPolicy St) :
  heap w !! m = Some M → hsms_ M = None →
  current_of m (snd (startHSM m w)) = getStartState M
  ∧ OnEntry (S f) m w = startHSM m w
  ∧ (parent_ M = None → smThread_ M = false →
     fst (startHSM m w) = Done
     ∧ trace (snd (startHSM m w))
       = trace w ++ [ECurrent m (getStartState M); ESpawn m])
  ∧ (parent_ M = Some p →
     fst (startHSM m w) = Done
     ∧ trace (snd (startHSM m w)) = trace w ++ [ECurrent m (getStartState M)])
  ∧ (AsyncH.smThread_ St pol = false →
     AsyncH.onEntry St enter e pol
     = Some (AsyncH.mkPolicy St (enter e (AsyncH.base St pol)) true
               (AsyncH.queue_stopped St pol) (AsyncH.interrupt_ St pol))).
Proof.
  intros Hm Hplain. split; [now apply (current_of_startHSM m M)|].
  split; [simpl; now rewrite Hm, Hplain|].
  split; [|split].
  - intros Hp Ht. rewrite (startHSM_root m M w Hm Hp Ht). simpl.
    split; [reflexivity|now rewrite <- app_assoc].
  - intros Hp. rewrite (startHSM_child m p M w Hm Hp). now split.
  - intros Ht. unfold AsyncH.onEntry. now rewrite Ht.
Qed.

(** C9 (as the code has it).  [startHSM] and [stopHSM] return nothing
    and check nothing.  On a machine with a parent, [startHSM] assigns
    the start state to the current state whatever it was and [stopHSM]
    sets the interrupt flag whatever it was.  On a machine without a
    parent, [startHSM] with the worker already there ends in
    [std::terminate] after the assignment, and [stopHSM] with no worker
    sets the interrupt flag, stops the queue and then fails in [join]. *)
Theorem C9_start_and_stop_are_unguarded
    (m p : nat) (M : StateMachine) (w : World U) :
  heap w !! m = Some M →
  (parent_ M = Some p →
   startHSM m w
   = (Done, emit (ECurrent m (getStartState M))
                 (upd m (set_current (getStartState M)) w))
   ∧ stopHSM m w = (Done, upd m (set_interrupt true) w))
  ∧ current_of m (snd (startHSM m w)) = getStartState M
  ∧ interrupt_of m (snd (stopHSM m w)) = true
  ∧ (parent_ M = None → smThread_ M = true → fst (startHSM m w) = StdTerminate)
  ∧ (parent_ M = None → smThread_ M = false →
     fst (stopHSM m w) = SystemError
     ∧ stopped (queue (snd (stopHSM m w))) = true).
Proof.
  intros Hm. split; [|split; [|split; [|split]]].
  - intros Hp. split; [now apply (startHSM_child m p)|].
    unfold stopHSM. now rewrite Hm, Hp.
  - now apply (current_of_startHSM m M).
  - now apply (interrupt_of_stopHSM m M).
  - intros Hp Ht. now rewrite (startHSM_root_again m M w Hm Hp Ht).
  - intros Hp Ht. unfold stopHSM. rewrite Hm, Hp, Ht. now split.
Qed.
End Lifecycle.

Lemma C5_start_assigns_and_spawns_witness :
  Tsm.current_of 0 (snd (Tsm.startHSM 0 (Samples.fresh_world None))) = Some 1%nat.
Proof.
  refine (proj1
    (C5_start_assigns_and_spawns (list nat) 0 0 9
       (Tsm.new_StateMachine (Some 1%nat) None None) (Samples.fresh_world None)
       unit (λ _ x, x) (Samples.ev 1) (AsyncH.mkPolicy unit tt false false false)
       _ _)).
  - reflexivity.
  - reflexivity.
Defined.

(** C5 fails as stated: entering the machine 0, whose start state is the
    plain state 1, assigns the current state and spawns the worker, and
    the entry hook of state 1 is not among the effects. *)
Lemma C5_start_state_is_not_entered :
  let r := Tsm.OnEntry 1 0 (Samples.fresh_world None) in
  fst r = Tsm.Done
  ∧ Tsm.current_of 0 (snd r) = Some 1%nat
  ∧ Tsm.trace (snd r) = [Tsm.ECurrent 0 (Some 1%nat); Tsm.ESpawn 0]
  ∧ ¬ In (Tsm.EOnEntry 1) (Tsm.trace (snd r)).
Proof.
  cbv zeta. repeat split; try (vm_compute; reflexivity).
  vm_compute. intros [H|[H|[]]]; discriminate.
Qed.

Lemma C9_start_and_stop_are_unguarded_witness :
  Tsm.current_of 0 (snd (Tsm.startHSM 0 Samples.advanced_world)) = Some 1%nat.
Proof.
  refine (proj1 (proj2
    (C9_start_and_stop_are_unguarded (list nat) 0 9 Samples.advanced_child
       Samples.advanced_world _))).
  reflexivity.
Defined.

(** C9 fails as stated: machine 0 (a child of machine 9) is running and
    has advanced to state 2; a second [startHSM] returns normally and has
    put it back into its start state 1.  And [stopHSM] on a machine that
    was never started returns normally and has set its interrupt flag. *)
Lemma C9_second_start_resets_the_current_state :
  Tsm.current_of 0 Samples.advanced_world = Some 2%nat
  ∧ fst (Tsm.startHSM 0 Samples.advanced_world) = Tsm.Done
  ∧ Tsm.current_of 0 (snd (Tsm.startHSM 0 Samples.advanced_world)) = Some 1%nat
  ∧ Tsm.interrupt_of 0 (Samples.fresh_world (Some 9%nat)) = false
  ∧ fst (Tsm.stopHSM 0 (Samples.fresh_world (Some 9%nat))) = Tsm.Done
  ∧ Tsm.interrupt_of 0 (snd (Tsm.stopHSM 0 (Samples.fresh_world (Some 9%nat)))) = true.
Proof. repeat split; vm_compute; reflexivity. Qed.

(** ** Unhandled events and the stop state *)

Section DispatchFacts.
Import EventH Tsm.
Variable U : Type.
Variable run_action : nat → U → U.
Variable eval_guard : nat → U → bool.
Abbreviation execute := (Tsm.execute run_action eval_guard).
Abbreviation passes := (Tsm.passes eval_guard).
Abbreviation transitioned := (Tsm.transitioned run_action).

Lemma nextEvent_QHead (q0 q : EventQueue) (e : Event) :
  nextEvent q0 = QHead e q → q0 = addFront e q ∧ stopped q = false.
Proof.
  unfold nextEvent, addFront. destruct q0 as [evs st]. simpl.
  destruct st; [discriminate|]. destruct evs as [|x rest]; [discriminate|].
  intros [= -> <-]. now split.
Qed.

Lemma nextEvent_addFront (q : EventQueue) (e : Event) :
  stopped q = false → nextEvent (addFront e q) = QHead e q.
Proof.
  intros Hs. unfold nextEvent, addFront. simpl. rewrite Hs.
  destruct q as [evs st]. simpl in *. now subst.
Qed.


(** C7.  The comparison with the stop state is the first thing in a
    pass of the loop: when it succeeds the interrupt flag is set and the
    call returns with the queue and the trace untouched.  A transition
    that lands on the stop state is carried out in full (exit, entry,
    assignment, action, execute of the new state); it is the pass after
    it that sets the flag and leaves, having dequeued nothing more.
    Afterwards every further call returns at once and leaves the world
    as it is. *)
Theorem C7_stop_state_is_checked_before_the_dequeue
    (f f' m : nat) (M : StateMachine) (w : World U)
    (c : nat) (e : Event) (q : EventQueue) (t : Transition) (a b : nat) :
  heap w !! m = Some M → interrupt_ M = false → hsms_ M = None →
  currentState_ M = Some c → currentState_ M ≠ getStopState M →
  nextEvent (queue w) = QHead e q →
  next (table_ M) (Some c) e = Some t → passes t w →
  fromState t = Some a → toState t = Some b →
  heap w !! a = None → heap w !! b = None →
  getStopState M = Some b →
  (∀ (M0 : StateMachine) (w0 : World U),
      heap w0 !! m = Some M0 → interrupt_ M0 = false → hsms_ M0 = None →
      currentState_ M0 = getStopState M0 →
      execute (S f) m w0 = (Done, upd m (set_interrupt true) w0)
      ∧ queue (upd m (set_interrupt true) w0) = queue w0
      ∧ trace (upd m (set_interrupt true) w0) = trace w0
      ∧ interrupt_of m (upd m (set_interrupt true) w0) = true)
  ∧ (let w1 := transitioned m e q t a b w in
     let w2 := upd m (set_interrupt true) w1 in
     execute (S (S f)) m w = execute (S f) m w1
     ∧ interrupt_of m w1 = false
     ∧ execute (S f) m w1 = (Done, w2)
     ∧ queue w2 = q
     ∧ trace w2
       = trace w ++ [EDequeue m e; EOnExit a; EOnEntry b; ECurrent m (Some b)]
           ++ match action t with Some x => [EAction m x] | None => [] end
           ++ [EExecute b]
     ∧ current_of m w2 = Some b
     ∧ interrupt_of m w2 = true
     ∧ execute (S f') m w2 = (Done, w2)).
Proof.
  intros Hm Hrun Hplain Hcur Hnostop Hq Hn Hp Ha Hb Hna Hnb Hstop.
  split.
  - intros M0 w0 Hm0 Hrun0 Hplain0 Hs0.
    split; [now apply (execute_at_stop U run_action eval_guard f m M0)|].
    split; [reflexivity|]. split; [reflexivity|].
    unfold interrupt_of. simpl. now rewrite lookup_alter_eq, Hm0.
  - cbv zeta.
    assert (H1 : heap (transitioned m e q t a b w) !! m
                 = Some (set_current (toState t) M)).
    { rewrite (heap_transitioned U run_action m M w e q Hm).
      apply lookup_insert_eq. }
    split; [eapply execute_hit_plain; eauto|].
    split; [unfold interrupt_of; now rewrite H1|].
    split.
    { apply (execute_at_stop U run_action eval_guard f m
               (set_current (toState t) M)); try assumption.
      simpl. now rewrite Hb, <- Hstop. }
    split; [apply (queue_transitioned U run_action m w e q)|].
    split; [now apply (trace_transitioned U run_action m w e q)|].
    split; [unfold current_of; rewrite heap_upd_eq, H1; exact Hb|].
    split; [unfold interrupt_of; now rewrite heap_upd_eq, H1|].
    apply (execute_interrupted U run_action eval_guard f' m
             (set_interrupt true (set_current (toState t) M))); [|reflexivity].
    now rewrite heap_upd_eq, H1.
Qed.
End DispatchFacts.

Lemma C7_stop_state_is_checked_before_the_dequeue_witness :
  let w := Samples.one_step_world (Some 7%nat) None (Some 2%nat) None
             [Samples.ev 5; Samples.ev 6] in
  let w1 := Tsm.transitioned Samples.sample_action 0 (Samples.ev 5)
              (Tsm.mkQueue [Samples.ev 6] false)
              (Tsm.mkTransition (Some 1%nat) (Samples.ev 5) (Some 2%nat)
                 (Some 7%nat) None) 1 2 w in
  Samples.run 2 0 w1 = (Tsm.Done, Tsm.upd 0 (Tsm.set_interrupt true) w1).
Proof.
  refine (proj1 (proj2 (proj2 (proj2
    (C7_stop_state_is_checked_before_the_dequeue (list nat)
       Samples.sample_action Samples.sample_guard 1 0 0
       (Samples.one_step (Some 7%nat) None (Some 2%nat) None)
       (Samples.one_step_world (Some 7%nat) None (Some 2%nat) None
          [Samples.ev 5; Samples.ev 6])
       1 (Samples.ev 5) (Tsm.mkQueue [Samples.ev 6] false)
       (Tsm.mkTransition (Some 1%nat) (Samples.ev 5) (Some 2%nat) (Some 7%nat) None)
       1 2 _ _ _ _ _ _ _ _ _ _ _ _ _))))).
  - reflexivity.
  - reflexivity.
  - reflexivity.
  - reflexivity.
  - vm_compute. discriminate.
  - reflexivity.
  - reflexivity.
  - left. reflexivity.
  - reflexivity.
  - reflexivity.
  - reflexivity.
  - reflexivity.
  - reflexivity.
Defined.

(** ** The current state of a machine *)

Section CurrentState.
Import EventH Tsm.
Variable U : Type.
Variable run_action : nat → U → U.
Variable eval_guard : nat → U → bool.
Abbreviation execute := (Tsm.execute run_action eval_guard).






End CurrentState.


(** ** [OrthogonalHSM] *)

Section Orthogonal.
Import EventH Tsm.
Variable U : Type.
Variable run_action : nat → U → U.
Variable eval_guard : nat → U → bool.
Abbreviation execute := (Tsm.execute run_action eval_guard).

Lemma same_static_events (w w' : World U) (h : nat) :
  same_static w w' → events_of h w' = events_of h w.
Proof.
  intros Hs. specialize (Hs h). unfold events_of, getEvents.
  destruct (heap w !! h) as [A|], (heap w' !! h) as [A'|];
    simpl in Hs; try discriminate; [|reflexivity].
  unfold static in Hs. now injection Hs as _ _ _ _ -> _.
Qed.

Lemma same_static_parent (w w' : World U) (h : nat) :
  same_static w w' → parent_of h w' = parent_of h w.
Proof.
  intros Hs. specialize (Hs h). unfold parent_of.
  destruct (heap w !! h) as [A|], (heap w' !! h) as [A'|];
    simpl in Hs; try discriminate; [|reflexivity].
  unfold static in Hs. now injection Hs as _ _ _ -> _ _.
Qed.

(** C1 (as the code has it).  In a pass of [OrthogonalHSM::execute] the
    two children first run their own loops, A and then B, each taking
    events off the queue until it returns.  The event that the
    orthogonal machine then dequeues itself is routed by A's recognized
    events alone: if it is among them it goes back to the front of the
    queue and the loop goes round again, beginning with A; otherwise,
    whether or not B recognizes it, it is unhandled, which with a
    parent means back to the front of the queue and return, and without
    one logged, gone, and round again.  The recognized events consulted
    are those the children were declared with.  Throughout, what has been
    taken off the queue for good followed by what is still queued is the
    sequence of events that was there at the beginning: an event that one
    machine has consumed is not in the queue for another to take. *)
Theorem C1_orthogonal_pass
    (f m h1 h2 p : nat) (M : StateMachine) (w w1 w2 : World U)
    (e : Event) (q : EventQueue) :
  heap w !! m = Some M → interrupt_ M = false → hsms_ M = Some (h1, h2) →
  execute f h1 w = (Done, w1) → execute f h2 w1 = (Done, w2) →
  nextEvent (queue w2) = QHead e q →
  let w3 := dequeued m e q w2 in
  let back := emit (EAddFront m e) (set_queue (addFront e q) w3) in
  events_of h1 w3 = events_of h1 w
  ∧ events_of h2 w3 = events_of h2 w
  ∧ (id e ∈ events_of h1 w →
     execute (S f) m w = execute f m back
     ∧ nextEvent (queue back) = QHead e q)
  ∧ (id e ∉ events_of h1 w → parent_ M = Some p →
     execute (S f) m w = (Done, back)
     ∧ nextEvent (queue back) = QHead e q)
  ∧ (id e ∉ events_of h1 w → parent_ M = None →
     execute (S f) m w = execute f m (emit (EUnhandled m e) w3)
     ∧ queue (emit (EUnhandled m e) w3) = q)
  ∧ (∀ fuel : nat, conserved w (snd (execute fuel m w))).
Proof.
  intros Hm Hrun Hh E1 E2 Hq. cbv zeta.
  assert (Hcons : ∀ fuel : nat, conserved w (snd (execute fuel m w))).
  { intros fuel. apply (evolves_execute U run_action eval_guard fuel m w). }
  assert (Ev : evolves w w2).
  { eapply evolves_trans.
    - pose proof (evolves_execute U run_action eval_guard f h1 w) as H.
      rewrite E1 in H. exact H.
    - pose proof (evolves_execute U run_action eval_guard f h2 w1) as H.
      rewrite E2 in H. exact H. }
  destruct Ev as (Hs & _ & _).
  assert (Hs3 : same_static w (dequeued m e q w2)) by exact Hs.
  pose proof (same_static_events _ _ h1 Hs3) as Hev1.
  pose proof (same_static_events _ _ h2 Hs3) as Hev2.
  pose proof (same_static_parent _ _ m Hs3) as Hpar.
  assert (HpM : parent_of m w = parent_ M) by (unfold parent_of; now rewrite Hm).
  destruct (nextEvent_QHead _ _ _ Hq) as [_ Hst].
  assert (Hstep : execute (S f) m w
                  = if decide (id e ∈ events_of h1 (dequeued m e q w2)) then
                      execute f m
                        (emit (EAddFront m e)
                           (set_queue (addFront e q) (dequeued m e q w2)))
                    else
                      match parent_of m (dequeued m e q w2) with
                      | Some _ =>
                          (Done, emit (EAddFront m e)
                                   (set_queue (addFront e q) (dequeued m e q w2)))
                      | None => execute f m (emit (EUnhandled m e) (dequeued m e q w2))
                      end).
  { simpl. rewrite Hm, Hrun, Hh. fold execute. rewrite E1, E2, Hq. reflexivity. }
  split; [exact Hev1|]. split; [exact Hev2|].
  split; [|split; [|split; [|exact Hcons]]].
  - intros Hin. split; [|simpl; now apply nextEvent_addFront].
    rewrite Hstep. rewrite decide_True by (now rewrite Hev1). reflexivity.
  - intros Hnin Hp. split; [|simpl; now apply nextEvent_addFront].
    rewrite Hstep. rewrite decide_False by (now rewrite Hev1).
    now rewrite Hpar, HpM, Hp.
  - intros Hnin Hp. split; [|reflexivity].
    rewrite Hstep. rewrite decide_False by (now rewrite Hev1).
    now rewrite Hpar, HpM, Hp.
Qed.
End Orthogonal.

Lemma C1_orthogonal_pass_witness :
  Samples.run 3 0 (Samples.ortho_world Samples.peerA Samples.peerB' None [Samples.ev 3])
  = Samples.run 2 0
      (Tsm.emit (Tsm.EUnhandled 0 (Samples.ev 3))
         (Tsm.dequeued 0 (Samples.ev 3) (Tsm.mkQueue [] false)
            (snd (Samples.run 2 2
               (snd (Samples.run 2 1
                  (Samples.ortho_world Samples.peerA Samples.peerB' None
                     [Samples.ev 3]))))))).
Proof.
  refine (proj1 (proj1 (proj2 (proj2 (proj2 (proj2
    (C1_orthogonal_pass (list nat) Samples.sample_action Samples.sample_guard
       2 0 1 2 9
       (Tsm.mkSM false None None None ∅ None true ∅ (Some (1%nat, 2%nat)))
       (Samples.ortho_world Samples.peerA Samples.peerB' None [Samples.ev 3])
       (snd (Samples.run 2 1
               (Samples.ortho_world Samples.peerA Samples.peerB' None [Samples.ev 3])))
       (snd (Samples.run 2 2 (snd (Samples.run 2 1
               (Samples.ortho_world Samples.peerA Samples.peerB' None [Samples.ev 3])))))
       (Samples.ev 3) (Tsm.mkQueue [] false) _ _ _ _ _ _))))) _ _)).
  - vm_compute. reflexivity.
  - reflexivity.
  - reflexivity.
  - vm_compute. reflexivity.
  - vm_compute. reflexivity.
  - vm_compute. reflexivity.
  - vm_compute. discriminate.
  - reflexivity.
Defined.

(** C1 fails as stated: the orthogonal machine 0 has no parent; its child
    B (machine 2) recognizes event 3, its child A (machine 1) does not.
    With B in a state from which it has no transition on 3, both children
    put the event back, the orthogonal machine dequeues it, consults A's
    events only, and logs and drops it as unhandled: it is not handed to
    B, and the queue is empty afterwards. *)
Lemma C1_event_of_B_alone_is_dropped :
  let w := Samples.ortho_world Samples.peerA Samples.peerB' None [Samples.ev 3] in
  let r := Samples.run 4 0 w in
  (EventH.id (Samples.ev 3) ∈ Tsm.events_of 2 w)
  ∧ (EventH.id (Samples.ev 3) ∉ Tsm.events_of 1 w)
  ∧ fst r = Tsm.Waiting
  ∧ Tsm.trace (snd r)
    = [Tsm.EDequeue 1 (Samples.ev 3); Tsm.EAddFront 1 (Samples.ev 3);
       Tsm.EDequeue 2 (Samples.ev 3); Tsm.EAddFront 2 (Samples.ev 3);
       Tsm.EDequeue 0 (Samples.ev 3); Tsm.EUnhandled 0 (Samples.ev 3)]
  ∧ Tsm.events (Tsm.queue (snd r)) = []
  ∧ Samples.kept_by 2 (Tsm.trace (snd r)) = [].
Proof.
  cbv zeta. split; [|split].
  - vm_compute. reflexivity.
  - vm_compute. discriminate.
  - repeat split; vm_compute; reflexivity.
Qed.

(** ** Scenarios *)

(** The socket machine, fed sock_open, bind, listen, accept, accept and
    close, goes from closed through ready, bound and listening (three
    times) back to closed, and then waits for more. *)
Example socket_trajectory :
  let r := Samples.run 7 0
             (Samples.socket_world
                [Samples.ev 1; Samples.ev 2; Samples.ev 3; Samples.ev 5;
                 Samples.ev 5; Samples.ev 6]) in
  fst r = Tsm.Waiting
  ∧ Samples.trajectory 0 (Tsm.trace (snd r))
    = [Some 2; Some 3; Some 5; Some 5; Some 5; Some 1]%nat.
Proof. split; vm_compute; reflexivity. Qed.

(** The parent moves into the child on event 7; the child has no
    transition on event 8 and puts it back; the parent dequeues it next
    and moves on to state 102. *)
Example parent_takes_what_the_child_leaves :
  let r := Samples.run 5 100 (Samples.family_world [Samples.ev 7; Samples.ev 8]) in
  fst r = Tsm.Waiting
  ∧ Samples.kept_by 200 (Tsm.trace (snd r)) = []
  ∧ Samples.kept_by 100 (Tsm.trace (snd r)) = [Samples.ev 7; Samples.ev 8]
  ∧ Tsm.current_of 100 (snd r) = Some 102%nat.
Proof. repeat split; vm_compute; reflexivity. Qed.

(** A recognizes events 1 and 2, B recognizes event 3; of the events 1,
    3, 1, 3 A takes the two 1s and B the two 3s, in order. *)
Example orthogonal_peers_share_the_queue :
  let r := Samples.run 6 0
             (Samples.ortho_world Samples.peerA Samples.peerB None
                [Samples.ev 1; Samples.ev 3; Samples.ev 1; Samples.ev 3]) in
  fst r = Tsm.Waiting
  ∧ Samples.kept_by 1 (Tsm.trace (snd r)) = [Samples.ev 1; Samples.ev 1]
  ∧ Samples.kept_by 2 (Tsm.trace (snd r)) = [Samples.ev 3; Samples.ev 3]
  ∧ Samples.kept_by 0 (Tsm.trace (snd r)) = [].
Proof. repeat split; vm_compute; reflexivity. Qed.

(** Event 1 is recognized by both peers and A has a transition on it
    from its current state; B, whose loop is still running after event 3,
    takes it before A gets to see it. *)
Example orthogonal_peer_B_takes_a_shared_event :
  let w := Samples.ortho_world Samples.peerA Samples.peerB'' None
             [Samples.ev 3; Samples.ev 1] in
  let r := Samples.run 6 0 w in
  (EventH.id (Samples.ev 1) ∈ Tsm.events_of 1 w)
  ∧ (EventH.id (Samples.ev 1) ∈ Tsm.events_of 2 w)
  ∧ Samples.kept_by 1 (Tsm.trace (snd r)) = []
  ∧ Samples.kept_by 2 (Tsm.trace (snd r)) = [Samples.ev 3; Samples.ev 1].
Proof.
  cbv zeta. split; [|split].
  - vm_compute. reflexivity.
  - vm_compute. reflexivity.
  - split; vm_compute; reflexivity.
Qed.

(** * Further properties *)

(** ** Comparing events *)

(** The three comparison operators of [Event] look at the id alone and
    agree with one another: [==] is equality of ids whatever the data,
    [!=] is its negation, [<] is irreflexive and transitive, and two
    events are unordered by [<] exactly when they are [==], which is what
    [std::set<Event>] relies on. *)
Theorem Event_comparisons_agree (a b c : EventH.Event) (i d1 d2 : Z) :
  (EventH.Event_eq a b = true ↔ EventH.id a = EventH.id b)
  ∧ EventH.Event_eq (EventH.mkEvent i d1) (EventH.mkEvent i d2) = true
  ∧ EventH.Event_ne a b = negb (EventH.Event_eq a b)
  ∧ EventH.Event_lt a a = false
  ∧ (EventH.Event_lt a b = true → EventH.Event_lt b c = true →
     EventH.Event_lt a c = true)
  ∧ (EventH.Event_lt a b = false ∧ EventH.Event_lt b a = false
     ↔ EventH.Event_eq a b = true).
Proof.
  unfold EventH.Event_eq, EventH.Event_ne, EventH.Event_lt. simpl.
  split; [apply Z.eqb_eq|].
  split; [apply Z.eqb_refl|].
  split; [reflexivity|].
  split; [apply Z.ltb_irrefl|].
  split.
  - rewrite !Z.ltb_lt. lia.
  - rewrite !Z.ltb_ge, Z.eqb_eq. lia.
Qed.

(** ** The counter wraps *)

(** On one thread the ids of default-constructed events repeat with
    period [2^32]: the event constructed [2^32] constructions after the
    [n]-th has the id of the [n]-th.  A fresh thread hands out 1 first
    and 0 at its [2^32]-th construction. *)
Theorem default_ids_repeat_after_2_32 (tid : nat) (c : gmap nat Z) (n : nat) :
  (0 < n)%nat →
  EventH.nth_default_id (n + Z.to_nat EventH.uint32_max) tid c
  = EventH.nth_default_id n tid c
  ∧ (EventH.counter_of c tid = 0 →
     EventH.nth_default_id 1 tid c = 1
     ∧ EventH.nth_default_id (Z.to_nat EventH.uint32_max) tid c = 0).
Proof.
  intros Hn.
  assert (HM : 0 < EventH.uint32_max) by (unfold EventH.uint32_max; lia).
  split.
  - rewrite !nth_default_id_closed by lia.
    rewrite Nat2Z.inj_add, Z2Nat.id by lia.
    unfold EventH.wrap32.
    replace (EventH.counter_of c tid + (Z.of_nat n + EventH.uint32_max))
      with (EventH.counter_of c tid + Z.of_nat n + 1 * EventH.uint32_max) by lia.
    apply Z_mod_plus_full.
  - intros Hc. rewrite !nth_default_id_closed by lia. rewrite Hc.
    rewrite Z2Nat.id by lia. unfold EventH.wrap32. split.
    + reflexivity.
    + simpl. apply Z_mod_same_full.
Qed.

Lemma default_ids_repeat_after_2_32_witness :
  EventH.nth_default_id (1 + Z.to_nat EventH.uint32_max) 0 ∅
  = EventH.nth_default_id 1 0 ∅.
Proof.
  refine (proj1 (default_ids_repeat_after_2_32 0 ∅ 1 _)). lia.
Defined.

(** ** Declaring transitions *)

Section Declaring.
Import EventH.

Lemma Tsm_add_other (M : Tsm.StateMachine) fromSt (ev : Event) toSt act grd k :
  k ≠ (fromSt, id ev) →
  Tsm.table_ (Tsm.add fromSt ev toSt act grd M) !! k = Tsm.table_ M !! k.
Proof.
  intros Hk. unfold Tsm.add, Tsm.addTransition.
  destruct (Tsm.table_ M !! (fromSt, id ev)); simpl; [reflexivity|].
  now rewrite lookup_insert_ne.
Qed.

Lemma TH_add_other tbl (fromSt : nat) (ev : Event) toSt act grd k :
  k ≠ (fromSt, id ev) →
  TransitionH.data_ (TransitionH.add fromSt ev toSt act grd tbl) !! k
  = TransitionH.data_ tbl !! k.
Proof.
  intros Hk. unfold TransitionH.add, TransitionH.addTransition.
  destruct (TransitionH.data_ tbl !! (fromSt, id ev)); simpl; [reflexivity|].
  now rewrite lookup_insert_ne.
Qed.

Lemma TH_add_keeps tbl (fromSt : nat) (ev : Event) toSt act grd k t :
  TransitionH.data_ tbl !! k = Some t →
  TransitionH.data_ (TransitionH.add fromSt ev toSt act grd tbl) !! k = Some t.
Proof.
  unfold TransitionH.add, TransitionH.addTransition. intros Hk.
  destruct (TransitionH.data_ tbl !! (fromSt, id ev)) as [t0|] eqn:Hn; simpl;
    [assumption|].
  rewrite lookup_insert_ne; [assumption|]. intros <-. congruence.
Qed.

Lemma Tsm_events_match_add (M : Tsm.StateMachine) fromSt (ev : Event) toSt act grd :
  Tsm_events_match M → Tsm_events_match (Tsm.add fromSt ev toSt act grd M).
Proof.
  intros HM i. rewrite Tsm_add_events, elem_of_union, elem_of_singleton. split.
  - intros [-> | Hi].
    + exists fromSt. apply Tsm_add_is_Some.
    + apply HM in Hi as [s [t Hs]]. exists s, t. now apply Tsm_add_keeps.
  - intros [s Hs].
    destruct (decide ((s, i) = (fromSt, id ev))) as [[= _ ->]|Hne]; [now left|].
    right. apply HM. exists s. now rewrite Tsm_add_other in Hs.
Qed.

Lemma TH_events_match_add tbl (fromSt : nat) (ev : Event) toSt act grd :
  TH_events_match tbl → TH_events_match (TransitionH.add fromSt ev toSt act grd tbl).
Proof.
  intros HM i. rewrite TH_add_events, elem_of_union, elem_of_singleton. split.
  - intros [-> | Hi].
    + exists fromSt. apply TH_add_is_Some.
    + apply HM in Hi as [s [t Hs]]. exists s, t. now apply TH_add_keeps.
  - intros [s Hs].
    destruct (decide ((s, i) = (fromSt, id ev))) as [[= _ ->]|Hne]; [now left|].
    right. apply HM. exists s. now rewrite TH_add_other in Hs.
Qed.

Lemma Tsm_events_match_declare ds (M : Tsm.StateMachine) :
  Tsm_events_match M → Tsm_events_match (Tsm.declare ds M).
Proof.
  revert M. induction ds as [|d ds IH]; intros M HM; [exact HM|].
  simpl. apply IH. now apply Tsm_events_match_add.
Qed.

Lemma TH_events_match_declare ds tbl :
  TH_events_match tbl → TH_events_match (TransitionH.declare ds tbl).
Proof.
  revert tbl. induction ds as [|d ds IH]; intros tbl HM; [exact HM|].
  simpl. apply IH. now apply TH_events_match_add.
Qed.
End Declaring.

(** However a machine is declared, its recognized events are exactly the
    event ids for which its table has an entry under some from-state: an
    id is in [getEvents] if and only if [next] finds a transition for it
    from at least one state.  This holds for the table of [tsm.h] and for
    the table of [Transition.h]. *)
Theorem recognized_events_are_the_declared_ones
    (ds : list Tsm.Transition) (startSt stopSt parent : option nat)
    (ds' : list TransitionH.Declaration) (i d : Z) :
  (i ∈ Tsm.getEvents (Tsm.declare ds (Tsm.new_StateMachine startSt stopSt parent))
   ↔ ∃ s, is_Some (Tsm.next
                     (Tsm.table_
                        (Tsm.declare ds (Tsm.new_StateMachine startSt stopSt parent)))
                     s (EventH.mkEvent i d)))
  ∧ (i ∈ TransitionH.getEvents (TransitionH.declare ds' TransitionH.empty_table)
     ↔ ∃ s, is_Some (TransitionH.next
                       (TransitionH.declare ds' TransitionH.empty_table)
                       s (EventH.mkEvent i d))).
Proof.
  split.
  - apply (Tsm_events_match_declare ds). intros j. split.
    + intros Hj. now apply not_elem_of_empty in Hj.
    + intros [s [t Hs]]. simpl in Hs. now rewrite lookup_empty in Hs.
  - apply (TH_events_match_declare ds'). intros j. split.
    + intros Hj. now apply not_elem_of_empty in Hj.
    + intros [s [t Hs]]. simpl in Hs. now rewrite lookup_empty in Hs.
Qed.

Section Redeclaring.
Import EventH.

Lemma Tsm_add_unfold (M : Tsm.StateMachine) fromSt (ev : Event) toSt act grd :
  Tsm.add fromSt ev toSt act grd M
  = Tsm.mkSM (Tsm.interrupt_ M) (Tsm.currentState_ M) (Tsm.startState_ M)
      (Tsm.stopState_ M)
      (match Tsm.table_ M !! (fromSt, id ev) with
       | Some _ => Tsm.table_ M
       | None => <[(fromSt, id ev) := Tsm.mkTransition fromSt ev toSt act grd]>
                   (Tsm.table_ M)
       end)
      (Tsm.parent_ M) (Tsm.smThread_ M) ({[ id ev ]} ∪ Tsm.eventSet_ M) (Tsm.hsms_ M).
Proof.
  unfold Tsm.add, Tsm.addTransition.
  destruct (Tsm.table_ M !! (fromSt, id ev)); reflexivity.
Qed.

Lemma TH_add_unfold tbl (fromSt : nat) (ev : Event) toSt act grd :
  TransitionH.add fromSt ev toSt act grd tbl
  = TransitionH.mkTable
      (match TransitionH.data_ tbl !! (fromSt, id ev) with
       | Some _ => TransitionH.data_ tbl
       | None => <[(fromSt, id ev) := TransitionH.mkTransition toSt act grd]>
                   (TransitionH.data_ tbl)
       end)
      ({[ id ev ]} ∪ TransitionH.eventSet_ tbl).
Proof.
  unfold TransitionH.add, TransitionH.addTransition.
  destruct (TransitionH.data_ tbl !! (fromSt, id ev)); reflexivity.
Qed.

(** Inserting under two different keys, each only if it is free, gives
    the same map in either order. *)
Lemma insert_if_free_commute {V} (k1 k2 : option nat * Z) (v1 v2 : V)
    (tb : gmap (option nat * Z) V) :
  k1 ≠ k2 →
  (let tb2 := match tb !! k2 with Some _ => tb | None => <[k2 := v2]> tb end in
   match tb2 !! k1 with Some _ => tb2 | None => <[k1 := v1]> tb2 end)
  = (let tb1 := match tb !! k1 with Some _ => tb | None => <[k1 := v1]> tb end in
     match tb1 !! k2 with Some _ => tb1 | None => <[k2 := v2]> tb1 end).
Proof.
  intros Hne. cbv zeta.
  destruct (tb !! k1) as [x1|] eqn:H1, (tb !! k2) as [x2|] eqn:H2;
    rewrite ?lookup_insert_ne by congruence; rewrite ?H1, ?H2; try reflexivity.
  apply insert_insert_ne. congruence.
Qed.

Lemma insert_if_free_commute' {V} (k1 k2 : nat * Z) (v1 v2 : V)
    (tb : gmap (nat * Z) V) :
  k1 ≠ k2 →
  (let tb2 := match tb !! k2 with Some _ => tb | None => <[k2 := v2]> tb end in
   match tb2 !! k1 with Some _ => tb2 | None => <[k1 := v1]> tb2 end)
  = (let tb1 := match tb !! k1 with Some _ => tb | None => <[k1 := v1]> tb end in
     match tb1 !! k2 with Some _ => tb1 | None => <[k2 := v2]> tb1 end).
Proof.
  intros Hne. cbv zeta.
  destruct (tb !! k1) as [x1|] eqn:H1, (tb !! k2) as [x2|] eqn:H2;
    rewrite ?lookup_insert_ne by congruence; rewrite ?H1, ?H2; try reflexivity.
  apply insert_insert_ne. congruence.
Qed.
End Redeclaring.

(** Declaring a transition under a key (from-state and event id) that
    already has one changes nothing at all, neither the table nor the
    recognized events, whatever the new toState, action, guard or event
    data.  Two declarations under different keys give the same table in
    either order, and the same ids of recognized events; when the two
    events have different ids as well, the whole machine is the same in
    either order.  (With equal ids and different data the set of events
    keeps the event that was inserted first, so that the order shows in
    the data of the recognized events, which [eventSet_] does not
    record.) *)
Theorem add_redeclared_is_void_and_tables_commute
    (M : Tsm.StateMachine) (tbl : TransitionH.StateTransitionTableT)
    (s1 s2 : nat) (e1 e1' e2 : EventH.Event) (t1 t1' t2 : nat)
    (a1 a1' a2 g1 g1' g2 : option nat)
    (h1 h1' h2 : option (EventH.Event → bool)) :
  EventH.id e1' = EventH.id e1 →
  (s1, EventH.id e1) ≠ (s2, EventH.id e2) →
  let M12 := Tsm.add (Some s1) e1 (Some t1) a1 g1
               (Tsm.add (Some s2) e2 (Some t2) a2 g2 M) in
  let M21 := Tsm.add (Some s2) e2 (Some t2) a2 g2
               (Tsm.add (Some s1) e1 (Some t1) a1 g1 M) in
  let tbl12 := TransitionH.add s1 e1 t1 a1 h1 (TransitionH.add s2 e2 t2 a2 h2 tbl) in
  let tbl21 := TransitionH.add s2 e2 t2 a2 h2 (TransitionH.add s1 e1 t1 a1 h1 tbl) in
  Tsm.add (Some s1) e1' (Some t1') a1' g1' (Tsm.add (Some s1) e1 (Some t1) a1 g1 M)
  = Tsm.add (Some s1) e1 (Some t1) a1 g1 M
  ∧ Tsm.table_ M12 = Tsm.table_ M21
  ∧ (∀ i : Z, (i ∈ Tsm.getEvents M12) ↔ (i ∈ Tsm.getEvents M21))
  ∧ (EventH.id e1 ≠ EventH.id e2 → M12 = M21)
  ∧ TransitionH.add s1 e1' t1' a1' h1' (TransitionH.add s1 e1 t1 a1 h1 tbl)
    = TransitionH.add s1 e1 t1 a1 h1 tbl
  ∧ TransitionH.data_ tbl12 = TransitionH.data_ tbl21
  ∧ (∀ i : Z, (i ∈ TransitionH.getEvents tbl12) ↔ (i ∈ TransitionH.getEvents tbl21))
  ∧ (EventH.id e1 ≠ EventH.id e2 → tbl12 = tbl21).
Proof.
  intros Hid Hne. cbv zeta.
  assert (HM : Tsm.add (Some s1) e1 (Some t1) a1 g1
                 (Tsm.add (Some s2) e2 (Some t2) a2 g2 M)
               = Tsm.add (Some s2) e2 (Some t2) a2 g2
                   (Tsm.add (Some s1) e1 (Some t1) a1 g1 M)).
  { rewrite (Tsm_add_unfold (Tsm.add (Some s2) _ _ _ _ M)),
      (Tsm_add_unfold (Tsm.add (Some s1) _ _ _ _ M)), !(Tsm_add_unfold M). simpl.
    f_equal.
    + apply (insert_if_free_commute (Some s1, EventH.id e1) (Some s2, EventH.id e2)).
      congruence.
    + now rewrite !(assoc_L (∪)), (comm_L (∪) {[EventH.id e1]}). }
  assert (HT : TransitionH.add s1 e1 t1 a1 h1 (TransitionH.add s2 e2 t2 a2 h2 tbl)
               = TransitionH.add s2 e2 t2 a2 h2 (TransitionH.add s1 e1 t1 a1 h1 tbl)).
  { rewrite (TH_add_unfold (TransitionH.add s2 _ _ _ _ tbl)),
      (TH_add_unfold (TransitionH.add s1 _ _ _ _ tbl)), !(TH_add_unfold tbl). simpl.
    f_equal.
    + now apply (insert_if_free_commute' (s1, EventH.id e1) (s2, EventH.id e2)).
    + now rewrite !(assoc_L (∪)), (comm_L (∪) {[EventH.id e1]}). }
  split; [|split; [|split; [|split; [|split; [|split; [|split]]]]]].
  - rewrite (Tsm_add_unfold (Tsm.add _ _ _ _ _ M)), Hid.
    destruct (Tsm_add_is_Some M (Some s1) e1 (Some t1) a1 g1) as [t Ht].
    unfold Tsm.next in Ht. rewrite Ht.
    rewrite (Tsm_add_unfold M). simpl. f_equal.
    now rewrite (assoc_L (∪)), (idemp_L (∪)).
  - now rewrite HM.
  - intros i. now rewrite HM.
  - intros _. exact HM.
  - rewrite (TH_add_unfold (TransitionH.add _ _ _ _ _ tbl)), Hid.
    destruct (TH_add_is_Some tbl s1 e1 t1 a1 h1) as [t Ht].
    unfold TransitionH.next in Ht. rewrite Ht.
    rewrite (TH_add_unfold tbl). simpl. f_equal.
    now rewrite (assoc_L (∪)), (idemp_L (∪)).
  - now rewrite HT.
  - intros i. now rewrite HT.
  - intros _. exact HT.
Qed.

Lemma add_redeclared_is_void_and_tables_commute_witness :
  Tsm.table_
    (Tsm.add (Some 1%nat) (Samples.ev 5) (Some 2%nat) None None
       (Tsm.add (Some 5%nat) (Samples.ev 6) (Some 1%nat) None None Samples.socket))
  = Tsm.table_
      (Tsm.add (Some 5%nat) (Samples.ev 6) (Some 1%nat) None None
         (Tsm.add (Some 1%nat) (Samples.ev 5) (Some 2%nat) None None Samples.socket)).
Proof.
  refine (proj1 (proj2
    (add_redeclared_is_void_and_tables_commute Samples.socket TransitionH.empty_table
       1 5 (Samples.ev 5) (EventH.mkEvent 5 3) (Samples.ev 6) 2 3 1
       None None None None None None None None None _ _))).
  - reflexivity.
  - vm_compute. discriminate.
Defined.

(** Looking up after [add]: the key just declared resolves, every other
    key resolves as before, and an entry that was there is still there
    unchanged; in a table without declarations nothing resolves. *)
Theorem next_after_add
    (M : Tsm.StateMachine) (tbl : TransitionH.StateTransitionTableT)
    (s s' : nat) (e e' : EventH.Event) (to : nat) (a g : option nat)
    (h : option (EventH.Event → bool)) (startSt stopSt parent : option nat) :
  (s', EventH.id e') ≠ (s, EventH.id e) →
  is_Some (Tsm.next (Tsm.table_ (Tsm.add (Some s) e (Some to) a g M)) (Some s) e)
  ∧ Tsm.next (Tsm.table_ (Tsm.add (Some s) e (Some to) a g M)) (Some s') e'
    = Tsm.next (Tsm.table_ M) (Some s') e'
  ∧ (∀ t, Tsm.next (Tsm.table_ M) (Some s) e = Some t →
          Tsm.next (Tsm.table_ (Tsm.add (Some s) e (Some to) a g M)) (Some s) e
          = Some t)
  ∧ Tsm.next (Tsm.table_ (Tsm.new_StateMachine startSt stopSt parent)) (Some s) e = None
  ∧ is_Some (TransitionH.next (TransitionH.add s e to a h tbl) s e)
  ∧ TransitionH.next (TransitionH.add s e to a h tbl) s' e'
    = TransitionH.next tbl s' e'
  ∧ (∀ t, TransitionH.next tbl s e = Some t →
          TransitionH.next (TransitionH.add s e to a h tbl) s e = Some t)
  ∧ TransitionH.next TransitionH.empty_table s e = None.
Proof.
  intros Hne. repeat split.
  - apply Tsm_add_is_Some.
  - unfold Tsm.next. apply Tsm_add_other. congruence.
  - intros t Ht. unfold Tsm.next in *. now apply Tsm_add_keeps.
  - apply TH_add_is_Some.
  - unfold TransitionH.next. now apply TH_add_other.
  - intros t Ht. unfold TransitionH.next in *. now apply TH_add_keeps.
Qed.

Lemma next_after_add_witness :
  Tsm.next (Tsm.table_ (Tsm.add (Some 4%nat) (Samples.ev 9) (Some 1%nat) None None
                          Samples.socket))
           (Some 1%nat) (Samples.ev 1)
  = Tsm.next (Tsm.table_ Samples.socket) (Some 1%nat) (Samples.ev 1).
Proof.
  refine (proj1 (proj2
    (next_after_add Samples.socket TransitionH.empty_table 4 1 (Samples.ev 9)
       (Samples.ev 1) 1 None None None None None None _))).
  vm_compute. discriminate.
Defined.

(** ** A principle for everything a run does *)

(** A relation between worlds that is reflexive and transitive and holds
    of each elementary change that the code makes (an entry in the trace,
    an action on the embedder's data, setting the interrupt flag, moving
    the thread handle, assigning the current state, stopping the queue,
    taking its head, putting an event at its front) holds between the
    world before and the world after every operation. *)
Section RunInduction.
Import EventH Tsm.
Variable U : Type.
Variable run_action : nat → U → U.
Variable eval_guard : nat → U → bool.
Variable R : World U → World U → Prop.
Hypothesis R_refl : ∀ w, R w w.
Hypothesis R_trans : ∀ w1 w2 w3, R w1 w2 → R w2 w3 → R w1 w3.
Hypothesis R_emit : ∀ x w, R w (emit x w).
Hypothesis R_user : ∀ u w, R w (set_user u w).
Hypothesis R_interrupt : ∀ (m : nat) w, R w (upd m (set_interrupt true) w).
Hypothesis R_thread : ∀ (m : nat) b w, R w (upd m (set_thread b) w).
Hypothesis R_current : ∀ (m : nat) s w, R w (upd m (set_current s) w).
Hypothesis R_stop : ∀ w, R w (set_queue (stop (queue w)) w).
Hypothesis R_dequeue :
  ∀ e q w, nextEvent (queue w) = QHead e q → R w (set_queue q w).
Hypothesis R_addFront :
  ∀ e w, stopped (queue w) = false → R w (set_queue (addFront e (queue w)) w).

Lemma run_startHSM (m : nat) w : R w (snd (startHSM m w)).
Proof.
  unfold startHSM. destruct (heap w !! m) as [M|]; [|apply R_refl].
  assert (E : R w (emit (ECurrent m (getStartState M))
                     (upd m (set_current (getStartState M)) w))).
  { eapply R_trans; [apply R_current|apply R_emit]. }
  destruct (parent_ M); [exact E|]. destruct (smThread_ M); [exact E|].
  simpl. eapply R_trans; [exact E|]. eapply R_trans; [apply R_thread|apply R_emit].
Qed.

Lemma run_stopHSM (m : nat) w : R w (snd (stopHSM m w)).
Proof.
  unfold stopHSM. destruct (heap w !! m) as [M|]; [|apply R_refl].
  destruct (parent_ M); [apply R_interrupt|].
  assert (E : R w (emit (EQueueStop m)
                     (set_queue (stop (queue (upd m (set_interrupt true) w)))
                        (upd m (set_interrupt true) w)))).
  { eapply R_trans; [apply R_interrupt|].
    eapply R_trans; [apply (R_stop (upd m (set_interrupt true) w))|apply R_emit]. }
  destruct (smThread_ M); [|exact E].
  simpl. eapply R_trans; [exact E|]. eapply R_trans; [apply R_thread|apply R_emit].
Qed.

Lemma run_OnExit_base (m : nat) w : R w (snd (OnExit_base m w)).
Proof.
  unfold OnExit_base. eapply R_trans; [|apply run_stopHSM].
  eapply R_trans; [apply R_current|apply R_emit].
Qed.

Lemma run_OnEntry fuel : ∀ (s : nat) w, R w (snd (OnEntry fuel s w)).
Proof.
  induction fuel as [|f IH]; intros s w; simpl; [apply R_refl|].
  destruct (heap w !! s) as [M|]; [|apply R_emit].
  destruct (hsms_ M) as [[h1 h2]|]; [|apply run_startHSM].
  pose proof (IH h1 w) as E1. destruct (OnEntry f h1 w) as [o1 w1]. simpl in E1.
  destruct o1; try exact E1.
  pose proof (IH h2 w1) as E2. destruct (OnEntry f h2 w1) as [o2 w2]. simpl in E2.
  destruct o2; try (eapply R_trans; [exact E1|exact E2]).
  eapply R_trans; [exact E1|]. eapply R_trans; [exact E2|apply run_startHSM].
Qed.

Lemma run_OnExit fuel : ∀ (s : nat) w, R w (snd (OnExit fuel s w)).
Proof.
  induction fuel as [|f IH]; intros s w; simpl; [apply R_refl|].
  destruct (heap w !! s) as [M|]; [|apply R_emit].
  destruct (hsms_ M) as [[h1 h2]|]; [|apply run_OnExit_base].
  pose proof (IH h1 w) as E1. destruct (OnExit f h1 w) as [o1 w1]. simpl in E1.
  destruct o1; try exact E1.
  pose proof (IH h2 w1) as E2. destruct (OnExit f h2 w1) as [o2 w2]. simpl in E2.
  destruct o2; try (eapply R_trans; [exact E1|exact E2]).
  eapply R_trans; [exact E1|]. eapply R_trans; [exact E2|apply run_OnExit_base].
Qed.

Lemma run_doTransition fuel t w : R w (snd (fst (doTransition fuel t w))).
Proof.
  unfold doTransition.
  destruct (fromState t) as [a|]; [|apply R_refl].
  destruct (toState t) as [b|]; [|apply R_refl].
  pose proof (run_OnExit fuel a w) as E1.
  destruct (OnExit fuel a w) as [o1 w1]. simpl in E1.
  destruct o1; try exact E1.
  pose proof (run_OnEntry fuel b w1) as E2.
  destruct (OnEntry fuel b w1) as [o2 w2]. simpl in *.
  eapply R_trans; [exact E1|exact E2].
Qed.

Lemma run_dequeued (m : nat) e q w :
  nextEvent (queue w) = QHead e q → R w (dequeued m e q w).
Proof.
  intros Hq. unfold dequeued. eapply R_trans; [apply (R_dequeue e q w Hq)|apply R_emit].
Qed.

Lemma run_putback (m : nat) e q w :
  stopped q = false →
  R (dequeued m e q w)
    (emit (EAddFront m e) (set_queue (addFront e q) (dequeued m e q w))).
Proof.
  intros Hs. eapply R_trans; [|apply R_emit].
  apply (R_addFront e (dequeued m e q w)). exact Hs.
Qed.

Lemma run_assigned (m : nat) t w : R w (assigned m t w).
Proof. unfold assigned. eapply R_trans; [apply R_current|apply R_emit]. Qed.

Lemma run_acted (m : nat) act w : R w (acted run_action m act w).
Proof.
  destruct act; simpl; [|apply R_refl].
  eapply R_trans; [apply R_user|apply R_emit].
Qed.

Lemma run_execute fuel :
  ∀ (m : nat) w, R w (snd (execute run_action eval_guard fuel m w)).
Proof.
  induction fuel as [|f IH]; intros m w; simpl; [apply R_refl|].
  destruct (heap w !! m) as [M|] eqn:HM; [|apply R_emit].
  destruct (interrupt_ M); [apply R_refl|].
  destruct (hsms_ M) as [[h1 h2]|].
  - pose proof (IH h1 w) as E1.
    destruct (execute run_action eval_guard f h1 w) as [o1 w1]. simpl in E1.
    destruct o1; try exact E1.
    pose proof (IH h2 w1) as E2.
    destruct (execute run_action eval_guard f h2 w1) as [o2 w2]. simpl in E2.
    assert (E12 : R w w2) by (eapply R_trans; eauto).
    destruct o2; try exact E12.
    destruct (nextEvent (queue w2)) as [| |e q] eqn:Hq.
    + destruct (negb (interrupt_of m w2)); exact E12.
    + exact E12.
    + destruct (nextEvent_QHead _ _ _ Hq) as [_ Hst].
      assert (E3 : R w (dequeued m e q w2)).
      { eapply R_trans; [exact E12|now apply run_dequeued]. }
      assert (E4 : R w (emit (EAddFront m e)
                          (set_queue (addFront e q) (dequeued m e q w2)))).
      { eapply R_trans; [exact E3|now apply run_putback]. }
      case_decide.
      * eapply R_trans; [exact E4|apply IH].
      * destruct (parent_of m _).
        -- exact E4.
        -- eapply R_trans; [|apply IH]. eapply R_trans; [exact E3|apply R_emit].
  - case_decide; [apply R_interrupt|].
    destruct (nextEvent (queue w)) as [| |e q] eqn:Hq.
    + destruct (negb (interrupt_of m w)); apply R_refl.
    + apply R_refl.
    + destruct (nextEvent_QHead _ _ _ Hq) as [_ Hst].
      assert (E1 : R w (dequeued m e q w)) by now apply run_dequeued.
      destruct (currentState_ M) as [cur|] eqn:Hcur; [|exact E1].
      destruct (next (table_ M) (Some cur) e) as [t|] eqn:Hn.
      * destruct (negb _ || _).
        -- pose proof (run_doTransition f t (dequeued m e q w)) as E2.
           change (emit (EDequeue m e) (set_queue q w)) with (dequeued m e q w).
           destruct (doTransition f t (dequeued m e q w)) as [[o2 w2] act].
           simpl in E2.
           assert (E12 : R w w2) by (eapply R_trans; eauto).
           destruct o2; try exact E12.
           assert (E4 : R w (acted run_action m act (assigned m t w2))).
           { eapply R_trans; [exact E12|].
             eapply R_trans; [apply run_assigned|apply run_acted]. }
           unfold assigned in E4.
           destruct (toState t) as [s|]; [|exact E4].
           match goal with
           | |- context [execute run_action eval_guard f s ?W] =>
               pose proof (IH s W) as E5;
               destruct (execute run_action eval_guard f s W) as [o5 w5]
           end.
           simpl in E5.
           assert (E45 : R w w5).
           { eapply R_trans; [exact E4|exact E5]. }
           destruct o5; try exact E45.
           eapply R_trans; [exact E45|apply IH].
        -- eapply R_trans; [|apply IH]. eapply R_trans; [exact E1|apply R_emit].
      * destruct (parent_ M).
        -- eapply R_trans; [exact E1|now apply run_putback].
        -- eapply R_trans; [|apply IH]. eapply R_trans; [exact E1|apply R_emit].
Qed.
End RunInduction.

(** ** Flags that only go one way *)

Section OneWay.
Import EventH Tsm.
Variable U : Type.
Variable run_action : nat → U → U.
Variable eval_guard : nat → U → bool.
Abbreviation execute := (Tsm.execute run_action eval_guard).
Implicit Types w : World U.

Lemma interrupt_of_upd (m s : nat) g w :
  (∀ M, interrupt_ M = true → interrupt_ (g M) = true) →
  interrupt_of s w = true → interrupt_of s (upd m g w) = true.
Proof.
  intros Hg. unfold interrupt_of. simpl. rewrite lookup_alter.
  case_decide; [subst|auto].
  destruct (heap w !! s) as [M|]; simpl; [apply Hg|discriminate].
Qed.

Lemma stop_of_stopped (q : EventQueue) : stopped q = true → stop q = q.
Proof. destruct q as [evs st]. simpl. now intros ->. Qed.

Lemma nextEvent_stopped (q : EventQueue) : stopped q = true → nextEvent q = QInterrupted.
Proof. intros Hs. unfold nextEvent. now rewrite Hs. Qed.

(** No operation clears an interrupt flag. *)
Lemma interrupts_stay (P : World U → World U) :
  (∀ R : World U → World U → Prop,
      (∀ w, R w w) → (∀ w1 w2 w3, R w1 w2 → R w2 w3 → R w1 w3) →
      (∀ x w, R w (emit x w)) → (∀ u w, R w (set_user u w)) →
      (∀ (m : nat) w, R w (upd m (set_interrupt true) w)) →
      (∀ (m : nat) b w, R w (upd m (set_thread b) w)) →
      (∀ (m : nat) s w, R w (upd m (set_current s) w)) →
      (∀ w, R w (set_queue (stop (queue w)) w)) →
      (∀ e q w, nextEvent (queue w) = QHead e q → R w (set_queue q w)) →
      (∀ e w, stopped (queue w) = false → R w (set_queue (addFront e (queue w)) w)) →
      ∀ w, R w (P w)) →
  ∀ (s : nat) w, interrupt_of s w = true → interrupt_of s (P w) = true.
Proof.
  intros HP s w.
  apply (HP (λ w w', interrupt_of s w = true → interrupt_of s w' = true)); auto.
  - intros m w0. now apply interrupt_of_upd.
  - intros m b w0. now apply interrupt_of_upd.
  - intros m c w0. now apply interrupt_of_upd.
Qed.

(** While the queue is stopped no operation touches it. *)
Lemma stopped_queue_stays (P : World U → World U) :
  (∀ R : World U → World U → Prop,
      (∀ w, R w w) → (∀ w1 w2 w3, R w1 w2 → R w2 w3 → R w1 w3) →
      (∀ x w, R w (emit x w)) → (∀ u w, R w (set_user u w)) →
      (∀ (m : nat) w, R w (upd m (set_interrupt true) w)) →
      (∀ (m : nat) b w, R w (upd m (set_thread b) w)) →
      (∀ (m : nat) s w, R w (upd m (set_current s) w)) →
      (∀ w, R w (set_queue (stop (queue w)) w)) →
      (∀ e q w, nextEvent (queue w) = QHead e q → R w (set_queue q w)) →
      (∀ e w, stopped (queue w) = false → R w (set_queue (addFront e (queue w)) w)) →
      ∀ w, R w (P w)) →
  ∀ w, stopped (queue w) = true → queue (P w) = queue w.
Proof.
  intros HP w.
  apply (HP (λ w w', stopped (queue w) = true → queue w' = queue w)); auto.
  - intros w1 w2 w3 H12 H23 Hs. rewrite H23; [now apply H12|].
    rewrite H12; assumption.
  - intros w0 Hs. simpl. now apply stop_of_stopped.
  - intros e q w0 Hq Hs. rewrite nextEvent_stopped in Hq by assumption. discriminate.
  - intros e w0 Hf Hs. congruence.
Qed.

(** Once a machine's [interrupt_] flag is set, whether by [stopHSM], by
    [OnExit] or by reaching the stop state, nothing in [tsm.h] clears it:
    it is still set after any run of any machine's loop, after any entry
    or exit hook and after [startHSM].  So a machine that has been
    stopped or exited and is started or entered again does not dispatch:
    its loop returns at once and leaves the world, the queue included, as
    it is. *)
Theorem stopped_machine_stays_stopped
    (fuel f : nat) (m s : nat) (M : StateMachine) (w : World U) :
  heap w !! s = Some M → interrupt_ M = true →
  interrupt_of s (snd (execute fuel m w)) = true
  ∧ interrupt_of s (snd (OnExit fuel m w)) = true
  ∧ interrupt_of s (snd (OnEntry fuel m w)) = true
  ∧ interrupt_of s (snd (startHSM m w)) = true
  ∧ interrupt_of s (snd (stopHSM m w)) = true
  ∧ execute (S f) s (snd (OnEntry fuel s w)) = (Done, snd (OnEntry fuel s w))
  ∧ execute (S f) s (snd (startHSM s w)) = (Done, snd (startHSM s w))
  ∧ execute (S f) s (snd (execute fuel m w)) = (Done, snd (execute fuel m w)).
Proof.
  intros Hs Hi.
  assert (H0 : interrupt_of s w = true) by (unfold interrupt_of; now rewrite Hs).
  assert (Hx : interrupt_of s (snd (execute fuel m w)) = true).
  { apply (interrupts_stay (λ w, snd (execute fuel m w))); [|exact H0].
    intros R ? ? ? ? ? ? ? ? ? ? w0. now apply run_execute. }
  assert (Hen : ∀ k : nat, interrupt_of s (snd (OnEntry fuel k w)) = true).
  { intros k. apply (interrupts_stay (λ w, snd (OnEntry fuel k w))); [|exact H0].
    intros R ? ? ? ? ? ? ? ? ? ? w0. now apply run_OnEntry. }
  assert (Hst : ∀ k : nat, interrupt_of s (snd (startHSM k w)) = true).
  { intros k. apply (interrupts_stay (λ w, snd (startHSM k w))); [|exact H0].
    intros R ? ? ? ? ? ? ? ? ? ? w0. now apply run_startHSM. }
  assert (Hinert : ∀ w', interrupt_of s w' = true → execute (S f) s w' = (Done, w')).
  { intros w' Hw'. unfold interrupt_of in Hw'.
    destruct (heap w' !! s) as [M'|] eqn:HM'; [|discriminate].
    now apply (execute_interrupted U run_action eval_guard f s M'). }
  split; [exact Hx|].
  split.
  { apply (interrupts_stay (λ w, snd (OnExit fuel m w))); [|exact H0].
    intros R ? ? ? ? ? ? ? ? ? ? w0. now apply run_OnExit. }
  split; [apply Hen|]. split; [apply Hst|].
  split.
  { apply (interrupts_stay (λ w, snd (stopHSM m w))); [|exact H0].
    intros R ? ? ? ? ? ? ? ? ? ? w0. now apply run_stopHSM. }
  split; [apply Hinert, Hen|]. split; [apply Hinert, Hst|]. apply Hinert, Hx.
Qed.

(** Once the queue is stopped, as [stopHSM] of a machine without a parent
    leaves it, no run and no hook takes an event off it or puts one on
    it, and it stays stopped; a machine that is then still running and
    not at its stop state leaves its loop with the queue's exception,
    without any change to the world. *)
Theorem stopped_queue_is_left_alone
    (fuel f : nat) (m k : nat) (M : StateMachine) (w : World U) :
  stopped (queue w) = true →
  heap w !! k = Some M → interrupt_ M = false → hsms_ M = None →
  currentState_ M ≠ getStopState M →
  queue (snd (execute fuel m w)) = queue w
  ∧ queue (snd (OnEntry fuel m w)) = queue w
  ∧ queue (snd (OnExit fuel m w)) = queue w
  ∧ execute (S f) k w = (QueueInterrupted, w).
Proof.
  intros Hs Hk Hrun Hplain Hnostop.
  split.
  { apply (stopped_queue_stays (λ w, snd (execute fuel m w))); [|exact Hs].
    intros R ? ? ? ? ? ? ? ? ? ? w0. now apply run_execute. }
  split.
  { apply (stopped_queue_stays (λ w, snd (OnEntry fuel m w))); [|exact Hs].
    intros R ? ? ? ? ? ? ? ? ? ? w0. now apply run_OnEntry. }
  split.
  { apply (stopped_queue_stays (λ w, snd (OnExit fuel m w))); [|exact Hs].
    intros R ? ? ? ? ? ? ? ? ? ? w0. now apply run_OnExit. }
  simpl. rewrite Hk, Hrun, Hplain.
  destruct (decide (currentState_ M = getStopState M)); [contradiction|].
  rewrite nextEvent_stopped by assumption.
  unfold interrupt_of. now rewrite Hk, Hrun.
Qed.

Lemma evolves_built_alike w w' (s : nat) (M : StateMachine) :
  evolves w w' → heap w !! s = Some M →
  ∃ M', heap w' !! s = Some M' ∧ built_alike M M'.
Proof.
  intros E Hs. destruct (evolves_lookup U _ _ s M E Hs) as (M' & HM' & Hst).
  exists M'. split; [exact HM'|].
  unfold static in Hst. injection Hst as H1 H2 H3 H4 H5 H6.
  unfold built_alike. auto 10.
Qed.

(** A run changes what the machines do, not how they are built: after any
    run of a loop and after any hook every machine is still there with
    the table, the recognized events, the start and stop state, the
    parent and the children it had, and no machine has appeared. *)
Theorem runs_leave_the_declarations_alone
    (fuel : nat) (m s : nat) (M : StateMachine) (w : World U) :
  heap w !! s = Some M →
  (∃ M', heap (snd (execute fuel m w)) !! s = Some M' ∧ built_alike M M')
  ∧ (∃ M', heap (snd (OnEntry fuel m w)) !! s = Some M' ∧ built_alike M M')
  ∧ (∃ M', heap (snd (OnExit fuel m w)) !! s = Some M' ∧ built_alike M M')
  ∧ (∃ M', heap (snd (startHSM m w)) !! s = Some M' ∧ built_alike M M')
  ∧ (∃ M', heap (snd (stopHSM m w)) !! s = Some M' ∧ built_alike M M')
  ∧ (∀ k : nat, heap w !! k = None →
       heap (snd (execute fuel m w)) !! k = None
       ∧ heap (snd (OnEntry fuel m w)) !! k = None
       ∧ heap (snd (OnExit fuel m w)) !! k = None).
Proof.
  intros Hs.
  split; [apply (evolves_built_alike w _ s M); [apply evolves_execute|exact Hs]|].
  split; [apply (evolves_built_alike w _ s M); [apply evolves_OnEntry|exact Hs]|].
  split; [apply (evolves_built_alike w _ s M); [apply evolves_OnExit|exact Hs]|].
  split; [apply (evolves_built_alike w _ s M); [apply evolves_startHSM|exact Hs]|].
  split; [apply (evolves_built_alike w _ s M); [apply evolves_stopHSM|exact Hs]|].
  intros k Hk. split; [|split].
  - apply (evolves_lookup_None U w _ k); [apply evolves_execute|exact Hk].
  - apply (evolves_lookup_None U w _ k); [apply evolves_OnEntry|exact Hk].
  - apply (evolves_lookup_None U w _ k); [apply evolves_OnExit|exact Hk].
Qed.
End OneWay.

Lemma stopped_machine_stays_stopped_witness :
  Tsm.interrupt_of 200
    (snd (Samples.run 5 100
            (snd (Tsm.stopHSM 200 (Samples.family_world [Samples.ev 7; Samples.ev 8])))))
  = true.
Proof.
  refine (proj1
    (stopped_machine_stays_stopped (list nat) Samples.sample_action
       Samples.sample_guard 5 0 100 200 (Tsm.set_interrupt true Samples.child_sm)
       (snd (Tsm.stopHSM 200 (Samples.family_world [Samples.ev 7; Samples.ev 8])))
       _ _)).
  - reflexivity.
  - reflexivity.
Defined.

Lemma stopped_queue_is_left_alone_witness :
  Samples.run 1 0
    (Tsm.set_queue (Tsm.stop (Tsm.mkQueue [Samples.ev 1] false))
       (Samples.socket_world [Samples.ev 1]))
  = (Tsm.QueueInterrupted,
     Tsm.set_queue (Tsm.stop (Tsm.mkQueue [Samples.ev 1] false))
       (Samples.socket_world [Samples.ev 1])).
Proof.
  refine (proj2 (proj2 (proj2
    (stopped_queue_is_left_alone (list nat) Samples.sample_action
       Samples.sample_guard 3 0 0 0 (Tsm.set_current (Some 1%nat) Samples.socket)
       (Tsm.set_queue (Tsm.stop (Tsm.mkQueue [Samples.ev 1] false))
          (Samples.socket_world [Samples.ev 1]))
       _ _ _ _ _)))).
  - reflexivity.
  - reflexivity.
  - reflexivity.
  - reflexivity.
  - vm_compute. discriminate.
Defined.

Lemma runs_leave_the_declarations_alone_witness :
  ∃ M', Tsm.heap (snd (Samples.run 4 0 (Samples.socket_world [Samples.ev 1]))) !! 0%nat
        = Some M'
        ∧ built_alike (Tsm.set_current (Some 1%nat) Samples.socket) M'.
Proof.
  refine (proj1
    (runs_leave_the_declarations_alone (list nat) Samples.sample_action
       Samples.sample_guard 4 0 0 (Tsm.set_current (Some 1%nat) Samples.socket)
       (Samples.socket_world [Samples.ev 1]) _)).
  reflexivity.
Defined.

(** ** How a loop ends *)

Section LoopEnds.
Import EventH Tsm.
Variable U : Type.
Variable run_action : nat → U → U.
Variable eval_guard : nat → U → bool.
Abbreviation execute := (Tsm.execute run_action eval_guard).
Abbreviation passes := (Tsm.passes eval_guard).
Abbreviation transitioned := (Tsm.transitioned run_action).
Implicit Types w : World U.

Lemma same_static_trans w1 w2 w3 :
  same_static w1 w2 → same_static w2 w3 → same_static w1 w3.
Proof. intros H12 H23 s. now rewrite H12, H23. Qed.

Lemma same_static_heap w w' : heap w' = heap w → same_static w w'.
Proof. intros H s. now rewrite H. Qed.

Lemma same_static_upd (m : nat) g w :
  (∀ M, static (g M) = static M) → same_static w (upd m g w).
Proof.
  intros Hg s. simpl. rewrite lookup_alter. case_decide; [subst|reflexivity].
  destruct (heap w !! s); simpl; [|reflexivity]. now rewrite Hg.
Qed.

Lemma same_static_execute fuel (m : nat) w o w' :
  execute fuel m w = (o, w') → same_static w w'.
Proof.
  intros E. pose proof (evolves_execute U run_action eval_guard fuel m w) as H.
  rewrite E in H. apply H.
Qed.

Lemma same_static_root w w' (m : nat) (M : StateMachine) :
  same_static w w' → heap w !! m = Some M → parent_ M = None →
  ∃ M', heap w' !! m = Some M' ∧ parent_ M' = None.
Proof.
  intros Hs HM Hp. specialize (Hs m). rewrite HM in Hs. simpl in Hs.
  destruct (heap w' !! m) as [M'|]; [|discriminate].
  exists M'. split; [reflexivity|]. simpl in Hs. unfold static in Hs.
  injection Hs as _ _ _ H _ _. congruence.
Qed.

(** The loop of a machine without a parent, plain or orthogonal, returns
    normally only with the machine's [interrupt_] flag set: by the loop
    condition, or by reaching the stop state.  Every other way out is
    waiting on the queue or an exception. *)
Theorem root_loop_returns_only_interrupted fuel :
  ∀ (m : nat) w (M : StateMachine),
    heap w !! m = Some M → parent_ M = None →
    fst (execute fuel m w) = Done →
    interrupt_of m (snd (execute fuel m w)) = true.
Proof.
  induction fuel as [|f IH]; intros m w M HM Hp; [discriminate|].
  assert (Hnext : ∀ w', same_static w w' →
            fst (execute f m w') = Done →
            interrupt_of m (snd (execute f m w')) = true).
  { intros w' Hs. destruct (same_static_root w w' m M Hs HM Hp) as (M' & HM' & Hp').
    now apply (IH m w' M'). }
  simpl. rewrite HM. destruct (interrupt_ M) eqn:Hi.
  { intros _. unfold interrupt_of. simpl. now rewrite HM. }
  destruct (hsms_ M) as [[h1 h2]|] eqn:Hh.
  - destruct (execute f h1 w) as [o1 w1] eqn:E1.
    destruct o1; try discriminate.
    destruct (execute f h2 w1) as [o2 w2] eqn:E2.
    destruct o2; try discriminate.
    assert (Hs2 : same_static w w2).
    { eapply same_static_trans; eapply same_static_execute; eauto. }
    destruct (nextEvent (queue w2)) as [| |e q] eqn:Hq.
    + destruct (interrupt_of m w2) eqn:Hi2; simpl; [auto|discriminate].
    + discriminate.
    + case_decide.
      * apply Hnext. eapply same_static_trans; [exact Hs2|]. now apply same_static_heap.
      * assert (Hpar : parent_of m (emit (EDequeue m e) (set_queue q w2)) = None).
        { destruct (same_static_root w w2 m M Hs2 HM Hp) as (M' & HM' & Hp').
          unfold parent_of. simpl. now rewrite HM'. }
        rewrite Hpar.
        apply Hnext. eapply same_static_trans; [exact Hs2|]. now apply same_static_heap.
  - case_decide.
    { intros _. unfold interrupt_of. simpl. now rewrite lookup_alter_eq, HM. }
    destruct (nextEvent (queue w)) as [| |e q] eqn:Hq.
    + unfold interrupt_of. rewrite HM, Hi. discriminate.
    + discriminate.
    + destruct (currentState_ M) as [cur|] eqn:Hcur; [|discriminate].
      destruct (next (table_ M) (Some cur) e) as [t|] eqn:Hn.
      * destruct (negb _ || _).
        -- change (emit (EDequeue m e) (set_queue q w)) with (dequeued m e q w).
           pose proof (evolves_doTransition U f t (dequeued m e q w)) as E2.
           destruct (doTransition f t (dequeued m e q w)) as [[o2 w2] act].
           simpl in E2. destruct E2 as (Hs2 & _).
           destruct o2; try discriminate.
           destruct (toState t) as [s|] eqn:Hto; [|discriminate].
           match goal with
           | |- context [Tsm.execute run_action eval_guard f s ?W] =>
               assert (Hs4 : same_static w2 W);
               [|destruct (Tsm.execute run_action eval_guard f s W) as [o5 w5] eqn:E5]
           end.
           { destruct act; simpl;
               (eapply same_static_trans;
                [apply (same_static_upd m (set_current (Some s))); reflexivity
                |now apply same_static_heap]). }
           destruct o5; try discriminate.
           apply Hnext.
           eapply same_static_trans; [|eapply same_static_execute; exact E5].
           eapply same_static_trans; [|exact Hs4].
           eapply same_static_trans; [|exact Hs2]. now apply same_static_heap.
        -- apply Hnext. now apply same_static_heap.
      * rewrite Hp. apply Hnext. now apply same_static_heap.
Qed.

End LoopEnds.

Lemma root_loop_returns_only_interrupted_witness :
  Tsm.interrupt_of 0
    (snd (Samples.run 4 0
            (Samples.one_step_world (Some 7%nat) None (Some 2%nat) None
               [Samples.ev 5; Samples.ev 6])))
  = true.
Proof.
  refine (root_loop_returns_only_interrupted (list nat) Samples.sample_action
            Samples.sample_guard 4 0
            (Samples.one_step_world (Some 7%nat) None (Some 2%nat) None
               [Samples.ev 5; Samples.ev 6])
            (Samples.one_step (Some 7%nat) None (Some 2%nat) None) _ _ _).
  - reflexivity.
  - reflexivity.
  - vm_compute. reflexivity.
Defined.

(** ** A machine over plain states works through its queue *)

Section Draining.
Import EventH Tsm.
Variable U : Type.
Variable run_action : nat → U → U.
Variable eval_guard : nat → U → bool.
Abbreviation execute := (Tsm.execute run_action eval_guard).
Abbreviation transitioned := (Tsm.transitioned run_action).
Implicit Types w : World U.

Lemma drains (evs : list Event) :
  ∀ w (m : nat) (M : StateMachine) (c : nat),
    heap w !! m = Some M → interrupt_ M = false → hsms_ M = None →
    parent_ M = None → currentState_ M = Some c → plain_entries w M →
    queue w = mkQueue evs false →
    (fst (execute (length evs + 2) m w) = Waiting
     ∧ events (queue (snd (execute (length evs + 2) m w))) = []
     ∧ interrupt_of m (snd (execute (length evs + 2) m w)) = false)
    ∨ (fst (execute (length evs + 2) m w) = Done
       ∧ interrupt_of m (snd (execute (length evs + 2) m w)) = true
       ∧ current_of m (snd (execute (length evs + 2) m w)) = getStopState M).
Proof.
  induction evs as [|e rest IH]; intros w m M c Hm Hrun Hplain Hroot Hcur Hpl Hq.
  - change (length (@nil Event) + 2)%nat with 2%nat.
    destruct (decide (currentState_ M = getStopState M)) as [Hs|Hs].
    + right.
      rewrite (execute_at_stop U run_action eval_guard _ m M w Hm Hrun Hplain Hs).
      unfold interrupt_of, current_of. simpl. rewrite lookup_alter_eq, Hm. simpl.
      auto.
    + left. simpl. rewrite Hm, Hrun, Hplain.
      destruct (decide (currentState_ M = getStopState M)); [contradiction|].
      rewrite Hq. simpl. unfold interrupt_of. rewrite Hm, Hq. auto.
  - change (length (e :: rest) + 2)%nat with (S (length rest + 2)).
    destruct (decide (currentState_ M = getStopState M)) as [Hs|Hs].
    + right.
      rewrite (execute_at_stop U run_action eval_guard _ m M w Hm Hrun Hplain Hs).
      unfold interrupt_of, current_of. simpl. rewrite lookup_alter_eq, Hm. simpl.
      auto.
    + assert (Hne : nextEvent (queue w) = QHead e (mkQueue rest false))
        by (rewrite Hq; reflexivity).
      destruct (next (table_ M) (Some c) e) as [t|] eqn:Hn.
      * destruct (guard t) as [g|] eqn:Hg;
          [destruct (eval_guard g (user w)) eqn:Hev|].
        -- (* guard passes *)
           destruct (Hpl _ _ Hn) as (a & b & Ha & Hb & Hna & Hnb).
           replace (S (length rest + 2)) with (S (S (length rest + 1))) by lia.
           rewrite (execute_hit_plain U run_action eval_guard (length rest + 1) m M w
                      c e (mkQueue rest false) Hm Hrun Hplain Hcur Hs Hne t a b Hn)
             by (try assumption; right; eauto).
           replace (S (length rest + 1)) with (length rest + 2)%nat by lia.
           apply (IH _ m (set_current (toState t) M) b).
           ++ rewrite (heap_transitioned U run_action m M w e _ Hm).
              apply lookup_insert_eq.
           ++ exact Hrun.
           ++ exact Hplain.
           ++ exact Hroot.
           ++ exact Hb.
           ++ intros k t' Ht'. destruct (Hpl k t' Ht') as (a' & b' & ? & ? & Ha' & Hb').
              exists a', b'. rewrite (heap_transitioned U run_action m M w e _ Hm).
              repeat split; try assumption;
                (rewrite lookup_insert_ne; [assumption|congruence]).
           ++ apply (queue_transitioned U run_action m w e).
        -- (* guard rejects *)
           rewrite (execute_guard_false U run_action eval_guard _ m M w Hm Hrun Hplain
                      c e (mkQueue rest false) Hcur Hs Hne t g Hn Hg Hev).
           apply (IH _ m M c); try assumption; reflexivity.
        -- (* no guard *)
           destruct (Hpl _ _ Hn) as (a & b & Ha & Hb & Hna & Hnb).
           replace (S (length rest + 2)) with (S (S (length rest + 1))) by lia.
           rewrite (execute_hit_plain U run_action eval_guard (length rest + 1) m M w
                      c e (mkQueue rest false) Hm Hrun Hplain Hcur Hs Hne t a b Hn)
             by (try assumption; left; assumption).
           replace (S (length rest + 1)) with (length rest + 2)%nat by lia.
           apply (IH _ m (set_current (toState t) M) b).
           ++ rewrite (heap_transitioned U run_action m M w e _ Hm).
              apply lookup_insert_eq.
           ++ exact Hrun.
           ++ exact Hplain.
           ++ exact Hroot.
           ++ exact Hb.
           ++ intros k t' Ht'. destruct (Hpl k t' Ht') as (a' & b' & ? & ? & Ha' & Hb').
              exists a', b'. rewrite (heap_transitioned U run_action m M w e _ Hm).
              repeat split; try assumption;
                (rewrite lookup_insert_ne; [assumption|congruence]).
           ++ apply (queue_transitioned U run_action m w e).
      * rewrite (execute_miss_root U run_action eval_guard _ m M w Hm Hrun Hplain
                   c e (mkQueue rest false) Hcur Hs Hne Hn Hroot).
        apply (IH _ m M c); try assumption; reflexivity.
Qed.

(** A machine without a parent whose transitions all lead from plain
    states to plain states works through whatever is queued: with [n]
    events in the queue, [n + 2] passes are enough for its loop to end,
    and it ends in one of two ways.  Either it is waiting on the empty
    queue, still running, and the events it has taken, in order, are
    exactly the events that were queued; or it has reached its stop
    state, set [interrupt_] and returned, and the events it has taken
    followed by those still in the queue are the events that were queued.
    Events without a transition and events whose guard answers false are
    used up like the others. *)
Theorem root_machine_works_through_the_queue
    (evs : list Event) (w : World U) (m : nat) (M : StateMachine) (c : nat) :
  heap w !! m = Some M → interrupt_ M = false → hsms_ M = None →
  parent_ M = None → currentState_ M = Some c → plain_entries w M →
  queue w = mkQueue evs false →
  let r := execute (length evs + 2) m w in
  (fst r = Waiting
   ∧ events (queue (snd r)) = []
   ∧ interrupt_of m (snd r) = false
   ∧ (taken (trace (snd r))).*2 = (taken (trace w)).*2 ++ evs)
  ∨ (fst r = Done
     ∧ interrupt_of m (snd r) = true
     ∧ current_of m (snd r) = getStopState M
     ∧ (taken (trace (snd r))).*2 ++ events (queue (snd r))
       = (taken (trace w)).*2 ++ evs).
Proof.
  intros Hm Hrun Hplain Hroot Hcur Hpl Hq. cbv zeta.
  pose proof (evolves_execute U run_action eval_guard (length evs + 2) m w)
    as (_ & _ & _ & Hc).
  unfold conserved in Hc. rewrite Hq in Hc. simpl in Hc.
  destruct (drains evs w m M c Hm Hrun Hplain Hroot Hcur Hpl Hq)
    as [(H1 & H2 & H3) | (H1 & H2 & H3)].
  - left. repeat split; try assumption.
    rewrite H2, app_nil_r in Hc. exact Hc.
  - right. repeat split; assumption.
Qed.
End Draining.

Lemma root_machine_works_through_the_queue_witness :
  let w := Samples.one_step_world (Some 7%nat) None None None
             [Samples.ev 5; Samples.ev 6] in
  let r := Samples.run 4 0 w in
  (fst r = Tsm.Waiting
   ∧ Tsm.events (Tsm.queue (snd r)) = []
   ∧ Tsm.interrupt_of 0 (snd r) = false
   ∧ (Tsm.taken (Tsm.trace (snd r))).*2
     = (Tsm.taken (Tsm.trace w)).*2 ++ [Samples.ev 5; Samples.ev 6])
  ∨ (fst r = Tsm.Done
     ∧ Tsm.interrupt_of 0 (snd r) = true
     ∧ Tsm.current_of 0 (snd r) = None
     ∧ (Tsm.taken (Tsm.trace (snd r))).*2 ++ Tsm.events (Tsm.queue (snd r))
       = (Tsm.taken (Tsm.trace w)).*2 ++ [Samples.ev 5; Samples.ev 6]).
Proof.
  refine (root_machine_works_through_the_queue (list nat) Samples.sample_action
            Samples.sample_guard [Samples.ev 5; Samples.ev 6]
            (Samples.one_step_world (Some 7%nat) None None None
               [Samples.ev 5; Samples.ev 6])
            0 (Samples.one_step (Some 7%nat) None None None) 1 _ _ _ _ _ _ _).
  - reflexivity.
  - reflexivity.
  - reflexivity.
  - reflexivity.
  - reflexivity.
  - intros k t Ht. unfold Samples.one_step in Ht.
    rewrite Tsm_add_unfold in Ht. simpl in Ht.
    apply lookup_insert_Some in Ht as [[_ <-]|[_ Ht]].
    + exists 1%nat, 2%nat. repeat split; reflexivity.
    + rewrite lookup_empty in Ht. discriminate.
  - reflexivity.
Defined.

(** ** What a child's loop leaves behind *)

Section ChildReturns.
Import EventH Tsm.
Variable U : Type.
Variable run_action : nat → U → U.
Variable eval_guard : nat → U → bool.
Abbreviation execute := (Tsm.execute run_action eval_guard).
Implicit Types w : World U.

Lemma same_static_child w w' (m p : nat) (M : StateMachine) :
  same_static w w' → heap w !! m = Some M → hsms_ M = None → parent_ M = Some p →
  ∃ M', heap w' !! m = Some M' ∧ hsms_ M' = None ∧ parent_ M' = Some p
        ∧ table_ M' = table_ M.
Proof.
  intros Hs HM Hh Hp. specialize (Hs m). rewrite HM in Hs. simpl in Hs.
  destruct (heap w' !! m) as [M'|]; [|discriminate].
  exists M'. split; [reflexivity|]. simpl in Hs. unfold static in Hs.
  injection Hs as _ _ H3 H4 _ H6. repeat split; congruence.
Qed.

(** When the loop of a plain machine with a parent returns normally,
    either the machine's [interrupt_] flag is set, or the event at the
    head of the queue is one for which the machine, in the state it is
    now in, has no transition: the event it has just put back for its
    parent.  A child never returns to its parent with an event at the
    head that it could have taken itself. *)
Theorem child_loop_returns_flagged_or_with_its_miss fuel :
  ∀ (m p : nat) w (M : StateMachine),
    heap w !! m = Some M → hsms_ M = None → parent_ M = Some p →
    fst (execute fuel m w) = Done →
    interrupt_of m (snd (execute fuel m w)) = true
    ∨ ∃ e q c, nextEvent (queue (snd (execute fuel m w))) = QHead e q
               ∧ current_of m (snd (execute fuel m w)) = Some c
               ∧ next (table_ M) (Some c) e = None.
Proof.
  induction fuel as [|f IH]; intros m p w M HM Hh Hp; [discriminate|].
  assert (Hnext : ∀ w', same_static w w' →
            fst (execute f m w') = Done →
            interrupt_of m (snd (execute f m w')) = true
            ∨ ∃ e q c, nextEvent (queue (snd (execute f m w'))) = QHead e q
                       ∧ current_of m (snd (execute f m w')) = Some c
                       ∧ next (table_ M) (Some c) e = None).
  { intros w' Hs.
    destruct (same_static_child w w' m p M Hs HM Hh Hp) as (M' & HM' & Hh' & Hp' & Ht').
    rewrite <- Ht'. now apply (IH m p w' M'). }
  simpl. rewrite HM. destruct (interrupt_ M) eqn:Hi.
  { intros _. left. unfold interrupt_of. simpl. now rewrite HM. }
  rewrite Hh. case_decide.
  { intros _. left. unfold interrupt_of. simpl. now rewrite lookup_alter_eq, HM. }
  destruct (nextEvent (queue w)) as [| |e q] eqn:Hq.
  - unfold interrupt_of. rewrite HM, Hi. discriminate.
  - discriminate.
  - destruct (currentState_ M) as [cur|] eqn:Hcur; [|discriminate].
    destruct (next (table_ M) (Some cur) e) as [t|] eqn:Hn.
    + destruct (negb _ || _).
      * change (emit (EDequeue m e) (set_queue q w)) with (dequeued m e q w).
        pose proof (evolves_doTransition U f t (dequeued m e q w)) as E2.
        destruct (doTransition f t (dequeued m e q w)) as [[o2 w2] act].
        simpl in E2. destruct E2 as (Hs2 & _).
        destruct o2; try discriminate.
        destruct (toState t) as [s|] eqn:Hto; [|discriminate].
        match goal with
        | |- context [Tsm.execute run_action eval_guard f s ?W] =>
            assert (Hs4 : same_static w2 W);
            [|destruct (Tsm.execute run_action eval_guard f s W) as [o5 w5] eqn:E5]
        end.
        { destruct act; simpl;
            (eapply (same_static_trans U);
             [apply (same_static_upd U m (set_current (Some s))); reflexivity
             |now apply (same_static_heap U)]). }
        destruct o5; try discriminate.
        apply Hnext.
        eapply (same_static_trans U);
          [|eapply (same_static_execute U run_action eval_guard); exact E5].
        eapply (same_static_trans U); [|exact Hs4].
        eapply (same_static_trans U); [|exact Hs2]. now apply (same_static_heap U).
      * apply Hnext. now apply (same_static_heap U).
    + rewrite Hp. intros _. right. exists e, q, cur.
      destruct (nextEvent_QHead _ _ _ Hq) as [_ Hst].
      split; [simpl; now apply nextEvent_addFront|].
      split; [unfold current_of; simpl; now rewrite HM|exact Hn].
Qed.
End ChildReturns.

Lemma child_loop_returns_flagged_or_with_its_miss_witness :
  Tsm.interrupt_of 200 (snd (Samples.run 3 200 Samples.entered_family)) = true
  ∨ ∃ e q c,
      Tsm.nextEvent (Tsm.queue (snd (Samples.run 3 200 Samples.entered_family)))
      = Tsm.QHead e q
      ∧ Tsm.current_of 200 (snd (Samples.run 3 200 Samples.entered_family)) = Some c
      ∧ Tsm.next (Tsm.table_ (Tsm.set_current (Some 201%nat) Samples.child_sm))
                 (Some c) e = None.
Proof.
  refine (child_loop_returns_flagged_or_with_its_miss (list nat)
            Samples.sample_action Samples.sample_guard 3 200 100
            Samples.entered_family
            (Tsm.set_current (Some 201%nat) Samples.child_sm) _ _ _ _).
  - reflexivity.
  - reflexivity.
  - reflexivity.
  - vm_compute. reflexivity.
Defined.

(** ** More on [OrthogonalHSM] *)

Section OrthogonalLoops.
Import EventH Tsm.
Variable U : Type.
Variable run_action : nat → U → U.
Variable eval_guard : nat → U → bool.
Abbreviation execute := (Tsm.execute run_action eval_guard).
Implicit Types w : World U.

Lemma execute_orthogonal (f m h1 h2 : nat) (M : StateMachine) w :
  heap w !! m = Some M → interrupt_ M = false → hsms_ M = Some (h1, h2) →
  execute (S f) m w
  = match execute f h1 w with
    | (Done, w1) =>
        match execute f h2 w1 with
        | (Done, w2) =>
            match nextEvent (queue w2) with
            | QInterrupted =>
                if negb (interrupt_of m w2) then (QueueInterrupted, w2) else (Done, w2)
            | QEmpty => (Waiting, w2)
            | QHead e q =>
                if decide (id e ∈ events_of h1 (dequeued m e q w2)) then
                  execute f m (emit (EAddFront m e)
                                 (set_queue (addFront e q) (dequeued m e q w2)))
                else
                  match parent_of m (dequeued m e q w2) with
                  | Some _ =>
                      (Done, emit (EAddFront m e)
                               (set_queue (addFront e q) (dequeued m e q w2)))
                  | None => execute f m (emit (EUnhandled m e) (dequeued m e q w2))
                  end
            end
        | r => r
        end
    | r => r
    end.
Proof. intros Hm Hrun Hh. simpl. rewrite Hm, Hrun, Hh. reflexivity. Qed.

(** An orthogonal machine whose child A recognizes the event at the head
    of the queue, while neither A nor B has a transition for it from its
    current state, never gets past that event: A puts it back, B puts it
    back, the orthogonal machine finds it among A's events and puts it
    back for A, and so on.  However many passes the loop is given it is
    still going, with the machines and the queue exactly as they were. *)
Theorem orthogonal_loop_spins_on_an_event_nobody_takes
    (fuel m h1 h2 pA pB cA cB : nat) (M A B : StateMachine)
    (e : Event) (rest : list Event) (w : World U) :
  heap w !! m = Some M → interrupt_ M = false → hsms_ M = Some (h1, h2) →
  heap w !! h1 = Some A → interrupt_ A = false → hsms_ A = None →
  parent_ A = Some pA → currentState_ A = Some cA →
  currentState_ A ≠ getStopState A → next (table_ A) (Some cA) e = None →
  heap w !! h2 = Some B → interrupt_ B = false → hsms_ B = None →
  parent_ B = Some pB → currentState_ B = Some cB →
  currentState_ B ≠ getStopState B → next (table_ B) (Some cB) e = None →
  id e ∈ getEvents A →
  queue w = mkQueue (e :: rest) false →
  fst (execute fuel m w) = OutOfFuel
  ∧ heap (snd (execute fuel m w)) = heap w
  ∧ queue (snd (execute fuel m w)) = queue w.
Proof.
  intros Hm Hrun Hh HA HArun HAplain HAp HAcur HAns HAn
         HB HBrun HBplain HBp HBcur HBns HBn Hin.
  revert w Hm HA HB.
  induction fuel as [|f IH]; intros w Hm HA HB Hq; [now repeat split|].
  rewrite (execute_orthogonal f m h1 h2 M w Hm Hrun Hh).
  destruct f as [|f']; [now repeat split|].
  assert (Hne : nextEvent (queue w) = QHead e (mkQueue rest false))
    by (rewrite Hq; reflexivity).
  rewrite (execute_miss_parent U run_action eval_guard f' h1 A w HA HArun HAplain
             cA e (mkQueue rest false) HAcur HAns Hne pA HAn HAp).
  set (w1 := emit (EAddFront h1 e)
               (set_queue (addFront e (mkQueue rest false))
                  (dequeued h1 e (mkQueue rest false) w))).
  assert (Hne1 : nextEvent (queue w1) = QHead e (mkQueue rest false)) by reflexivity.
  rewrite (execute_miss_parent U run_action eval_guard f' h2 B w1 HB HBrun HBplain
             cB e (mkQueue rest false) HBcur HBns Hne1 pB HBn HBp).
  set (w2 := emit (EAddFront h2 e)
               (set_queue (addFront e (mkQueue rest false))
                  (dequeued h2 e (mkQueue rest false) w1))).
  change (nextEvent (queue w2)) with (QHead e (mkQueue rest false)).
  cbv iota beta.
  rewrite decide_True
    by (unfold events_of; change (heap (dequeued m e (mkQueue rest false) w2))
          with (heap w); now rewrite HA).
  set (w3 := emit (EAddFront m e)
               (set_queue (addFront e (mkQueue rest false))
                  (dequeued m e (mkQueue rest false) w2))).
  destruct (IH w3 Hm HA HB) as (H1 & H2 & H3); [reflexivity|].
  split; [exact H1|]. split; [exact H2|]. rewrite H3, Hq. reflexivity.
Qed.
End OrthogonalLoops.

Lemma orthogonal_loop_spins_on_an_event_nobody_takes_witness :
  fst (Samples.run 50 0 Samples.stuck_peers) = Tsm.OutOfFuel.
Proof.
  refine (proj1
    (orthogonal_loop_spins_on_an_event_nobody_takes (list nat)
       Samples.sample_action Samples.sample_guard 50 0 1 2 0 0 11 20
       (Tsm.mkSM false None None None ∅ None false ∅ (Some (1%nat, 2%nat)))
       (Tsm.set_current (Some 11%nat) (Tsm.setParent (Some 0%nat) Samples.peerA))
       (Tsm.set_current (Some 20%nat) (Tsm.setParent (Some 0%nat) Samples.peerB))
       (Samples.ev 2) [Samples.ev 3] Samples.stuck_peers
       _ _ _ _ _ _ _ _ _ _ _ _ _ _ _ _ _ _ _)).
  all: try reflexivity.
  all: try (vm_compute; discriminate).
Defined.

Section OrthogonalHooks.
Import EventH Tsm.
Variable U : Type.
Implicit Types w : World U.

Ltac look HA HB :=
  repeat first
    [ rewrite lookup_alter_eq | rewrite lookup_alter_ne by congruence
    | rewrite lookup_insert_eq | rewrite lookup_insert_ne by congruence
    | rewrite HA | rewrite HB | progress simpl ].

(** The constructor of an [OrthogonalHSM] makes itself the parent of both
    children, whatever parent they had.  Entering it enters child 1, then
    child 2, then the machine itself, and the children start no thread of
    their own; only a machine without a parent does.  Exiting it exits
    child 1, then child 2, then the machine itself, and afterwards all
    three have a null current state and their [interrupt_] flag set;
    without a parent the queue is stopped as well. *)
Theorem orthogonal_machine_adopts_enters_and_stops_its_children
    (f m h1 h2 : nat) (A B : StateMachine) (parent : option nat) (w0 : World U) :
  heap w0 !! h1 = Some A → heap w0 !! h2 = Some B →
  hsms_ A = None → hsms_ B = None →
  h1 ≠ h2 → m ≠ h1 → m ≠ h2 →
  let w := new_OrthogonalHSM m h1 h2 parent w0 in
  let r1 := OnEntry (S (S f)) m w in
  let r2 := OnExit (S (S f)) m (snd r1) in
  (parent_of h1 w = Some m ∧ parent_of h2 w = Some m ∧ parent_of m w = parent)
  ∧ (fst r1 = Done
     ∧ trace (snd r1)
       = trace w0 ++ [ECurrent h1 (getStartState A); ECurrent h2 (getStartState B);
                      ECurrent m None]
           ++ match parent with None => [ESpawn m] | Some _ => [] end
     ∧ current_of h1 (snd r1) = getStartState A
     ∧ current_of h2 (snd r1) = getStartState B)
  ∧ (fst r2 = Done
     ∧ trace (snd r2)
       = trace (snd r1) ++ [ECurrent h1 None; ECurrent h2 None; ECurrent m None]
           ++ match parent with None => [EQueueStop m; EJoin m] | Some _ => [] end
     ∧ current_of h1 (snd r2) = None ∧ current_of h2 (snd r2) = None
     ∧ current_of m (snd r2) = None
     ∧ interrupt_of h1 (snd r2) = true ∧ interrupt_of h2 (snd r2) = true
     ∧ interrupt_of m (snd r2) = true
     ∧ (parent = None → stopped (queue (snd r2)) = true)).
Proof.
  intros HA HB HAp HBp H12 Hm1 Hm2. cbv zeta.
  unfold new_OrthogonalHSM, parent_of, current_of, interrupt_of.
  cbn [OnEntry OnExit].
  unfold State_OnEntry, State_OnExit, OnExit_base, startHSM, stopHSM.
  look HA HB. rewrite HAp. look HA HB. rewrite HBp. look HA HB.
  destruct parent as [p|]; look HA HB; rewrite ?HAp; look HA HB;
    rewrite ?HBp; look HA HB; rewrite <- ?app_assoc; simpl.
  - repeat split; try reflexivity. discriminate.
  - repeat split; reflexivity.
Qed.
End OrthogonalHooks.

Lemma orthogonal_machine_adopts_enters_and_stops_its_children_witness :
  Tsm.parent_of 1
    (Tsm.new_OrthogonalHSM 0 1 2 None
       (Samples.world_of (<[1%nat := Samples.peerA]> (<[2%nat := Samples.peerB]> ∅)) []))
  = Some 0%nat.
Proof.
  refine (proj1 (proj1
    (orthogonal_machine_adopts_enters_and_stops_its_children (list nat) 0 0 1 2
       Samples.peerA Samples.peerB None
       (Samples.world_of (<[1%nat := Samples.peerA]> (<[2%nat := Samples.peerB]> ∅)) [])
       _ _ _ _ _ _ _))).
  all: try reflexivity.
  all: lia.
Defined.

(** ** The worker of [AsyncExecutionPolicy] *)

Section Worker.
Import EventH.
Variable St : Type.
Variable enter leave : Event → St → St.
Variable dispatch : Event → St → St.
Variable Obs : Type.
Variable notify : Obs → Obs.
Abbreviation policy := (AsyncH.AsyncExecutionPolicy St).
Abbreviation step := (AsyncH.step St dispatch).
Abbreviation step_observed := (AsyncH.step_observed St dispatch Obs notify).
Abbreviation with_base := (AsyncH.with_base St).

Lemma with_base_same (p : policy) : with_base (AsyncH.base St p) p = p.
Proof. now destruct p. Qed.

Lemma step_S (f : nat) (evs : list Event) (p : policy) :
  step (S f) evs p
  = if AsyncH.interrupt_ St p then (AsyncH.StepReturned, evs, p)
    else match AsyncH.processEvent St dispatch evs p with
         | None => (AsyncH.StepWaiting, evs, p)
         | Some (evs', p') => step f evs' p'
         end.
Proof. reflexivity. Qed.

Lemma step_observed_S (f : nat) (evs : list Event) (p : policy) (o : Obs) :
  step_observed (S f) evs p o
  = if AsyncH.interrupt_ St p then (AsyncH.StepReturned, evs, p, o)
    else match AsyncH.processEvent St dispatch evs p with
         | None => (AsyncH.StepWaiting, evs, p, notify o)
         | Some (evs', p') => step_observed f evs' p' (notify o)
         end.
Proof. reflexivity. Qed.

Lemma step_runs (evs : list Event) :
  ∀ p : policy,
    AsyncH.interrupt_ St p = false → AsyncH.queue_stopped St p = false →
    step (S (length evs)) evs p
    = (AsyncH.StepWaiting, [],
       with_base (foldl (λ b e, dispatch e b) (AsyncH.base St p) evs) p).
Proof.
  induction evs as [|e rest IH]; intros p Hi Hq.
  - simpl. unfold AsyncH.processEvent. rewrite Hi, Hq. now rewrite with_base_same.
  - simpl length. rewrite step_S. unfold AsyncH.processEvent. rewrite Hi, Hq.
    rewrite IH by assumption. reflexivity.
Qed.

Lemma step_observed_runs (evs : list Event) :
  ∀ (p : policy) (o : Obs),
    AsyncH.interrupt_ St p = false → AsyncH.queue_stopped St p = false →
    step_observed (S (length evs)) evs p o
    = (AsyncH.StepWaiting, [],
       with_base (foldl (λ b e, dispatch e b) (AsyncH.base St p) evs) p,
       Nat.iter (S (length evs)) notify o).
Proof.
  induction evs as [|e rest IH]; intros p o Hi Hq.
  - simpl. unfold AsyncH.processEvent. rewrite Hi, Hq. now rewrite with_base_same.
  - simpl length. rewrite step_observed_S. unfold AsyncH.processEvent.
    rewrite Hi, Hq. rewrite IH by assumption. simpl.
    f_equal. clear. induction (length rest) as [|n IHn]; [reflexivity|].
    simpl in *. now rewrite <- IHn.
Qed.

(** While the policy is running and its queue is not stopped, the worker
    dispatches the waiting events one by one, oldest first, and then
    blocks on the empty queue: [n] events make [n] calls of [dispatch],
    in the order of the calls of [sendEvent].  The observing variant does
    the same and calls [notify] before each of them and once more before
    it blocks, [n + 1] times in all. *)
Theorem worker_dispatches_in_the_order_sent
    (evs : list Event) (e : Event) (p : policy) (o : Obs) :
  AsyncH.interrupt_ St p = false → AsyncH.queue_stopped St p = false →
  step (S (length evs)) evs p
  = (AsyncH.StepWaiting, [],
     with_base (foldl (λ b x, dispatch x b) (AsyncH.base St p) evs) p)
  ∧ step (S (S (length evs))) (AsyncH.sendEvent e evs) p
    = (AsyncH.StepWaiting, [],
       with_base (dispatch e (foldl (λ b x, dispatch x b) (AsyncH.base St p) evs)) p)
  ∧ step_observed (S (length evs)) evs p o
    = (AsyncH.StepWaiting, [],
       with_base (foldl (λ b x, dispatch x b) (AsyncH.base St p) evs) p,
       Nat.iter (S (length evs)) notify o).
Proof.
  intros Hi Hq. split; [now apply step_runs|]. split; [|now apply step_observed_runs].
  unfold AsyncH.sendEvent.
  replace (S (S (length evs))) with (S (length (evs ++ [e])))
    by (rewrite length_app; simpl; lia).
  rewrite step_runs by assumption. now rewrite foldl_app.
Qed.

(** Entering a policy machine starts the worker, and nothing but the
    destructor joins it: [onExit] stops the queue and sets [interrupt_]
    but leaves the thread handle joinable.  So a second [onEntry], with
    or without an [onExit] in between, assigns to a joinable thread and
    ends in [std::terminate].  After [onExit] the worker's loop returns
    at once, whatever is still waiting, and the observing loop does so
    without a call of [notify]. *)
Theorem policy_cannot_be_entered_twice
    (f : nat) (evs : list Event) (e1 e2 e3 : Event) (p : policy) (o : Obs) :
  AsyncH.smThread_ St p = false →
  ∃ p1, AsyncH.onEntry St enter e1 p = Some p1
        ∧ AsyncH.smThread_ St (AsyncH.onExit St leave e2 p1) = true
        ∧ AsyncH.queue_stopped St (AsyncH.onExit St leave e2 p1) = true
        ∧ AsyncH.onEntry St enter e3 p1 = None
        ∧ AsyncH.onEntry St enter e3 (AsyncH.onExit St leave e2 p1) = None
        ∧ step (S f) evs (AsyncH.onExit St leave e2 p1)
          = (AsyncH.StepReturned, evs, AsyncH.onExit St leave e2 p1)
        ∧ step_observed (S f) evs (AsyncH.onExit St leave e2 p1) o
          = (AsyncH.StepReturned, evs, AsyncH.onExit St leave e2 p1, o).
Proof.
  intros Ht. unfold AsyncH.onEntry at 1. rewrite Ht.
  eexists. split; [reflexivity|]. repeat split.
Qed.
End Worker.

Lemma worker_dispatches_in_the_order_sent_witness :
  AsyncH.step (list Z) (λ e b, EventH.id e :: b) 3
    [Samples.ev 1; Samples.ev 2] (AsyncH.mkPolicy (list Z) [] true false false)
  = (AsyncH.StepWaiting, [],
     AsyncH.with_base (list Z)
       (foldl (λ b x, EventH.id x :: b) [] [Samples.ev 1; Samples.ev 2])
       (AsyncH.mkPolicy (list Z) [] true false false)).
Proof.
  refine (proj1
    (worker_dispatches_in_the_order_sent (list Z) (λ e b, EventH.id e :: b)
       nat S [Samples.ev 1; Samples.ev 2] (Samples.ev 3)
       (AsyncH.mkPolicy (list Z) [] true false false) 0%nat _ _)).
  - reflexivity.
  - reflexivity.
Defined.

Lemma policy_cannot_be_entered_twice_witness :
  ∃ p1, AsyncH.onEntry unit (λ _ x, x) (Samples.ev 1)
          (AsyncH.mkPolicy unit tt false false false) = Some p1
        ∧ AsyncH.smThread_ unit (AsyncH.onExit unit (λ _ x, x) (Samples.ev 2) p1) = true
        ∧ AsyncH.queue_stopped unit (AsyncH.onExit unit (λ _ x, x) (Samples.ev 2) p1)
          = true
        ∧ AsyncH.onEntry unit (λ _ x, x) (Samples.ev 3) p1 = None
        ∧ AsyncH.onEntry unit (λ _ x, x) (Samples.ev 3)
            (AsyncH.onExit unit (λ _ x, x) (Samples.ev 2) p1) = None
        ∧ AsyncH.step unit (λ _ x, x) 1 [Samples.ev 4]
            (AsyncH.onExit unit (λ _ x, x) (Samples.ev 2) p1)
          = (AsyncH.StepReturned, [Samples.ev 4],
             AsyncH.onExit unit (λ _ x, x) (Samples.ev 2) p1)
        ∧ AsyncH.step_observed unit (λ _ x, x) nat S 1 [Samples.ev 4]
            (AsyncH.onExit unit (λ _ x, x) (Samples.ev 2) p1) 0%nat
          = (AsyncH.StepReturned, [Samples.ev 4],
             AsyncH.onExit unit (λ _ x, x) (Samples.ev 2) p1, 0%nat).
Proof.
  refine (policy_cannot_be_entered_twice unit (λ _ x, x) (λ _ x, x) (λ _ x, x)
            nat S 0 [Samples.ev 4] (Samples.ev 1) (Samples.ev 2) (Samples.ev 3)
            (AsyncH.mkPolicy unit tt false false false) 0%nat _).
  reflexivity.
Defined.

(** ** Who takes the event that a child has put back *)

Section Handover.
Import EventH Tsm.
Variable U : Type.
Variable run_action : nat → U → U.
Variable eval_guard : nat → U → bool.
Abbreviation execute := (Tsm.execute run_action eval_guard).
Abbreviation passes := (Tsm.passes eval_guard).
Abbreviation acted := (Tsm.acted run_action).
Implicit Types w : World U.




End Handover.


